(** * A shallow embedding of [Main.py]: the prefix-code engine
    ([Node], [HuffmanTree], [Encoding]) and the pure part of the image
    container ([Compresion.compress_image], [Compresion.decompress_image]).

    Conventions.
    - A Python [str] is a list of characters.  Bit strings (codewords, the
      encoded message) are lists of the characters ["0"] and ["1"]; the text
      that is compressed is a list over an arbitrary symbol type with
      decidable equality.
    - A Python [dict] is an association list in insertion order: iteration
      order matters both in [build_tree] and in [decode].
    - An exception is a value of [exn]; a method of [HuffmanTree] is a
      function from the object's state to a result and the new state.
    - [while] loops that always terminate are defined by well-founded
      recursion; the loop of [decode], which need not terminate, takes fuel
      and answers [None] when the fuel is exhausted before the loop exits. *)

From Stdlib Require Import List Ascii NArith ZArith Arith Lia ZifyNat Bool Permutation.
From Equations Require Import Equations.
Import ListNotations.

Set Implicit Arguments.
Set Warnings "-register-all".

(** ** Python values *)

Abbreviation str := (list ascii).

Inductive exn : Type :=
| IndexError
| KeyError
| TypeError
| AttributeError
| ValueError
| UnicodeEncodeError.

Inductive result (X : Type) : Type :=
| Ok (x : X)
| Raise (e : exn).
Arguments Ok {X} x.
Arguments Raise {X} e.

Definition bind {X Y : Type} (r : result X) (k : X -> result Y) : result Y :=
  match r with
  | Ok x => k x
  | Raise e => Raise e
  end.

Notation "x <- r ;; k" := (bind r (fun x => k))
  (at level 61, r at next level, right associativity).
Notation "' p <- r ;; k" := (bind r (fun x => match x with p => k end))
  (at level 61, p pattern, r at next level, right associativity).

(** [s.startswith(code)] *)
Fixpoint startswith (s code : str) {struct code} : bool :=
  match code, s with
  | [], _ => true
  | _ :: _, [] => false
  | c :: code', d :: s' => Ascii.eqb d c && startswith s' code'
  end.

(** ** Insertion-ordered dictionaries *)

Module Dict.
Abbreviation t K V := (list (K * V)).

Section Dict.
Context {K V : Type} (K_eq_dec : forall x y : K, {x = y} + {x <> y}).

(** [d[k]], [None] standing for the [KeyError] *)
Fixpoint get (d : t K V) (k : K) : option V :=
  match d with
  | [] => None
  | (k', v) :: d' => if K_eq_dec k k' then Some v else get d' k
  end.

(** [k in d] *)
Definition mem (d : t K V) (k : K) : bool :=
  match get d k with
  | Some _ => true
  | None => false
  end.

(** [d[k] = v]: an existing key keeps its position, a new key goes last *)
Fixpoint set (d : t K V) (k : K) (v : V) : t K V :=
  match d with
  | [] => [(k, v)]
  | (k', v') :: d' =>
      if K_eq_dec k k' then (k', v) :: d' else (k', v') :: set d' k v
  end.

Definition keys (d : t K V) : list K := map fst d.
End Dict.
End Dict.

Section Huffman.
Context {A : Type} (A_eq_dec : forall x y : A, {x = y} + {x <> y}).

(** ** class Node *)

(** [symbol] is [None] on the nodes that [build_tree] creates by merging;
    [left] and [right] are [None] until they are assigned. *)
Inductive Node : Type :=
| mkNode (symbol : option A) (weight : nat) (left right : option Node).

Definition symbol (n : Node) : option A :=
  match n with mkNode s _ _ _ => s end.
Definition weight (n : Node) : nat :=
  match n with mkNode _ w _ _ => w end.
Definition left (n : Node) : option Node :=
  match n with mkNode _ _ l _ => l end.
Definition right (n : Node) : option Node :=
  match n with mkNode _ _ _ r => r end.

(** [Node(symbol, weight)] *)
Definition Node_init (s : option A) (w : nat) : Node := mkNode s w None None.

Definition key_eq_dec : forall x y : option A, {x = y} + {x <> y}.
Proof. decide equality. Defined.

(** ** class HuffmanTree *)

Record HuffmanTree : Type := mkHuffmanTree {
  root : option Node;
  code_table : Dict.t (option A) str
}.

(** [HuffmanTree()] *)
Definition HuffmanTree_init : HuffmanTree :=
  {| root := None; code_table := [] |}.

(** A method: the object's state in, a result and the object's state out *)
Definition method (X : Type) : Type := HuffmanTree -> result X * HuffmanTree.

(** *** build_tree *)

(** One turn of [for symbol in symbols] over [symbol_counts].  After the
    [if], [symbol] is a key, so [symbol_counts[symbol] += 1] finds it. *)
Definition count_symbol (symbol_counts : Dict.t A nat) (symbol : A)
  : Dict.t A nat :=
  let symbol_counts :=
    if Dict.mem A_eq_dec symbol_counts symbol then symbol_counts
    else Dict.set A_eq_dec symbol_counts symbol 0 in
  match Dict.get A_eq_dec symbol_counts symbol with
  | Some count => Dict.set A_eq_dec symbol_counts symbol (count + 1)
  | None => symbol_counts
  end.

Definition count_symbols (symbols : list A) : Dict.t A nat :=
  fold_left count_symbol symbols [].

(** [parent = Node(None, left.weight + right.weight)] with its children *)
Definition merge (l r : Node) : Node :=
  mkNode None (weight l + weight r) (Some l) (Some r).

(** [while len(nodes) > 1]: pop two from the front, append their parent *)
Equations? merge_loop (nodes : list Node) : list Node
  by wf (length nodes) lt :=
  merge_loop (l :: r :: nodes) := merge_loop (nodes ++ [merge l r]);
  merge_loop nodes := nodes.
Proof. rewrite length_app. simpl. lia. Qed.

Definition build_tree (symbols : list A) : method unit := fun self =>
  let symbol_counts := count_symbols symbols in
  let nodes := map (fun '(s, count) => Node_init (Some s) count) symbol_counts in
  let nodes := merge_loop nodes in
  match nodes with
  | n :: _ => (Ok tt, {| root := Some n; code_table := code_table self |})
  | [] => (Raise IndexError, self)
  end.

(** *** generate_code_table *)

Fixpoint _generate_code_table (node : Node) (prefix : str)
    (table : Dict.t (option A) str) : Dict.t (option A) str :=
  match node with
  | mkNode s _ None None => Dict.set key_eq_dec table s prefix
  | mkNode _ _ l r =>
      let table :=
        match l with
        | Some n => _generate_code_table n (prefix ++ ["0"%char]) table
        | None => table
        end in
      match r with
      | Some n => _generate_code_table n (prefix ++ ["1"%char]) table
      | None => table
      end
  end.

(** [self.root] being [None], [node.left] raises [AttributeError], after
    the table was cleared. *)
Definition generate_code_table : method unit := fun self =>
  let self := {| root := root self; code_table := [] |} in
  match root self with
  | Some node =>
      (Ok tt, {| root := root self;
                 code_table := _generate_code_table node [] (code_table self) |})
  | None => (Raise AttributeError, self)
  end.

(** *** encode *)

Fixpoint encode_loop (table : Dict.t (option A) str) (symbols : list A)
    (encoded_symbols : str) : result str :=
  match symbols with
  | [] => Ok encoded_symbols
  | s :: symbols' =>
      match Dict.get key_eq_dec table (Some s) with
      | Some encoded_symbol =>
          encode_loop table symbols' (encoded_symbols ++ encoded_symbol)
      | None => Raise KeyError
      end
  end.

Definition encode (symbols : list A) : method str := fun self =>
  (encode_loop (code_table self) symbols [], self).

(** Sequencing of method calls on one object: an exception ends the
    sequence and leaves the object as it was when raised. *)
Definition and_then {X Y : Type} (m : method X) (k : X -> method Y)
  : method Y := fun self =>
  match m self with
  | (Ok x, self') => k x self'
  | (Raise e, self') => (Raise e, self')
  end.

(** ** class Encoding *)

(** [adaptive_huffman_encoding(text)] *)
Definition adaptive_huffman_encoding (text : list A)
  : result (str * Dict.t (option A) str) :=
  let tree := HuffmanTree_init in
  match and_then (build_tree text)
          (fun _ => and_then generate_code_table
          (fun _ => encode text)) tree with
  | (Ok encoded_text, tree) => Ok (encoded_text, code_table tree)
  | (Raise e, _) => Raise e
  end.

(** The body of [for character, code in code_table.items()]: there is no
    [break], so the entries after a match are tried on what is left.
    A key that is [None] cannot be added to a [str]. *)
Fixpoint decode_for (items : Dict.t (option A) str)
    (decoded_message : list A) (encoded_message : str)
  : result (list A * str) :=
  match items with
  | [] => Ok (decoded_message, encoded_message)
  | (character, code) :: items' =>
      if startswith encoded_message code then
        match character with
        | Some c =>
            decode_for items' (decoded_message ++ [c])
              (skipn (length code) encoded_message)
        | None => Raise TypeError
        end
      else decode_for items' decoded_message encoded_message
  end.

(** [while encoded_message:] with fuel: [None] when [fuel] turns of the loop
    did not empty [encoded_message]. *)
Fixpoint decode_while (fuel : nat) (code_table : Dict.t (option A) str)
    (decoded_message : list A) (encoded_message : str)
  : option (result (list A)) :=
  match encoded_message with
  | [] => Some (Ok decoded_message)
  | _ :: _ =>
      match fuel with
      | 0 => None
      | S fuel' =>
          match decode_for code_table decoded_message encoded_message with
          | Ok (decoded_message', encoded_message') =>
              decode_while fuel' code_table decoded_message' encoded_message'
          | Raise e => Some (Raise e)
          end
      end
  end.

Definition decode (fuel : nat) (encoded_message : str)
    (code_table : Dict.t (option A) str) : option (result (list A)) :=
  decode_while fuel code_table [] encoded_message.

(** [decode] returns [r]: some number of turns of the loop is enough. *)
Definition decode_returns (encoded_message : str)
    (code_table : Dict.t (option A) str) (r : result (list A)) : Prop :=
  exists fuel, decode fuel encoded_message code_table = Some r.

(** [decode] never returns: the loop outlasts every amount of fuel. *)
Definition decode_diverges (encoded_message : str)
    (code_table : Dict.t (option A) str) : Prop :=
  forall fuel, decode fuel encoded_message code_table = None.

End Huffman.

(** ** class Compresion: the image container

    [ImagesToTxt] is outside this file: [compress_image] is modelled from the
    point where [image_to_text] has returned [width], [height], [channels]
    and the raw bytes [binarios] (integers), up to the tuple that is pickled;
    [decompress_image] from the unpickled tuple up to [decoded_bytes], the
    argument of [text_to_image].  Characters are code points. *)

(** Binary digits of a positive number, most significant first *)
Fixpoint bin_digits (p : positive) : str :=
  match p with
  | xH => ["1"%char]
  | xO p' => bin_digits p' ++ ["0"%char]
  | xI p' => bin_digits p' ++ ["1"%char]
  end.

(** [format(byte, '08b')]: binary, padded with zeros on the left to 8 *)
Definition format_08b (byte : N) : str :=
  let digits := match byte with N0 => ["0"%char] | Npos p => bin_digits p end in
  repeat "0"%char (8 - length digits) ++ digits.

(** [int(s, 2)] on a string of binary digits *)
Fixpoint int2_loop (s : str) (acc : N) : result N :=
  match s with
  | [] => Ok acc
  | c :: s' =>
      if Ascii.eqb c "0"%char then int2_loop s' (2 * acc)%N
      else if Ascii.eqb c "1"%char then int2_loop s' (2 * acc + 1)%N
      else Raise ValueError
  end.

Definition int2 (s : str) : result N :=
  match s with
  | [] => Raise ValueError
  | _ => int2_loop s 0%N
  end.

(** [chr(n)] *)
Definition chr (n : N) : result N :=
  if (n <? 1114112)%N then Ok n else Raise ValueError.

(** [int(i) & 1] on a character *)
Definition int_and_1 (i : ascii) : result bool :=
  let n := nat_of_ascii i in
  if (48 <=? n) && (n <=? 57) then Ok (Nat.odd (n - 48)) else Raise ValueError.

(** [range(start, stop, step)] for a positive step *)
Fixpoint range_from (fuel start stop step : nat) : list nat :=
  match fuel with
  | 0 => []
  | S fuel' =>
      if start <? stop then start :: range_from fuel' (start + step) stop step
      else []
  end.

Definition range (start stop step : nat) : list nat :=
  range_from stop start stop step.

(** [s[i:j]] and [s[:-k]] for [k > 0] *)
Definition slice {X : Type} (s : list X) (i j : nat) : list X :=
  firstn (j - i) (skipn i s).

Definition drop_last {X : Type} (s : list X) (k : nat) : list X :=
  firstn (length s - k) s.

(** Evaluate a list of results from left to right *)
Fixpoint sequence {X : Type} (l : list (result X)) : result (list X) :=
  match l with
  | [] => Ok []
  | r :: l' => x <- r ;; xs <- sequence l' ;; Ok (x :: xs)
  end.

Record image_container : Type := mkContainer {
  tree_code_table : Dict.t (option N) str;
  bits : list bool;
  width : nat;
  height : nat;
  channels : nat;
  padding : nat
}.

(** The padding computed by [compress_image] for a bit string of length [len] *)
Definition paddinf_of (len : nat) : nat :=
  if negb (len mod 7 =? 0) then 7 - len mod 7 else 0.

(** [cadena_bits] after padding *)
Definition cadena_bits_of (binarios : list N) : str :=
  let cadena_bits := concat (map format_08b binarios) in
  cadena_bits ++ repeat "0"%char (paddinf_of (length cadena_bits)).

(** The text handed to [adaptive_huffman_encoding]: the generator ranges
    over [range(0, len(binarios), 7)], [binarios] still being the bytes. *)
Definition image_symbols (binarios : list N) : result (list N) :=
  let cadena_bits := cadena_bits_of binarios in
  sequence
    (map (fun i => n <- int2 (slice cadena_bits i (i + 7)) ;; chr n)
         (range 0 (length binarios) 7)).

Definition compress_image (width height channels : nat) (binarios : list N)
  : result image_container :=
  let cadena_bits := concat (map format_08b binarios) in
  let paddinf := paddinf_of (length cadena_bits) in
  binarios <- image_symbols binarios ;;
  '(encoded_text, tree_code_table) <- adaptive_huffman_encoding N.eq_dec binarios ;;
  bits <- sequence (map int_and_1 encoded_text) ;;
  Ok (mkContainer tree_code_table bits width height channels paddinf).

(** [bits.to01()] *)
Definition to01 (bits : list bool) : str :=
  map (fun b : bool => if b then "1"%char else "0"%char) bits.

(** [c.encode("utf-8")] for one character *)
Definition utf8_char (c : N) : result (list N) :=
  if (c <? 128)%N then Ok [c]
  else if (c <? 2048)%N then
    Ok [N.lor 192 (N.shiftr c 6); N.lor 128 (N.land c 63)]
  else if (c <? 65536)%N then
    if (55296 <=? c)%N && (c <? 57344)%N then Raise UnicodeEncodeError
    else Ok [N.lor 224 (N.shiftr c 12);
             N.lor 128 (N.land (N.shiftr c 6) 63);
             N.lor 128 (N.land c 63)]
  else
    Ok [N.lor 240 (N.shiftr c 18);
        N.lor 128 (N.land (N.shiftr c 12) 63);
        N.lor 128 (N.land (N.shiftr c 6) 63);
        N.lor 128 (N.land c 63)].

Definition encode_utf8 (text : list N) : result (list N) :=
  chunks <- sequence (map utf8_char text) ;; Ok (concat chunks).

(** [decoded_bytes] of [decompress_image]; [None] when [decode] has not
    returned within [fuel] turns of its loop. *)
Definition decompress_image (fuel : nat) (c : image_container)
  : option (result (list N)) :=
  let decoded_text := to01 (bits c) in
  let decoded_text :=
    if 0 <? padding c then drop_last decoded_text (padding c)
    else decoded_text in
  match decode fuel decoded_text (tree_code_table c) with
  | Some (Ok decoded_text) => Some (encode_utf8 decoded_text)
  | Some (Raise e) => Some (Raise e)
  | None => None
  end.

(** ** class Compresion: the text and video containers

    [compress_text] is modelled from the text that was read to the tuple
    that is pickled, [decompress_text] from the unpickled tuple to the text
    that is written. *)

Section Containers.
Context {A : Type} (A_eq_dec : forall x y : A, {x = y} + {x <> y}).

Definition compress_text (text : list A)
  : result (Dict.t (option A) str * list bool) :=
  '(encoded_text, tree_code_table) <- adaptive_huffman_encoding A_eq_dec text ;;
  bits <- sequence (map int_and_1 encoded_text) ;;
  Ok (tree_code_table, bits).

Definition decompress_text (fuel : nat)
    (payload : Dict.t (option A) str * list bool)
  : option (result (list A)) :=
  let '(tree_code_table, bits) := payload in
  decode fuel (to01 bits) tree_code_table.

(** [VideoProcessor] is outside this file: [binary_to_text] and
    [text_to_binary] are parameters; [compress_video] starts from the video
    that [read_video] returned and [decompress_video] ends with the video
    handed to [write_video]. *)
Section Video.
Context {V : Type} (binary_to_text : V -> list A) (text_to_binary : list A -> V).

Definition compress_video (video : V)
  : result (Dict.t (option A) str * list bool) :=
  let video := binary_to_text video in
  '(encoded_text, tree_code_table) <- adaptive_huffman_encoding A_eq_dec video ;;
  bits <- sequence (map int_and_1 encoded_text) ;;
  Ok (tree_code_table, bits).

Definition decompress_video (fuel : nat)
    (payload : Dict.t (option A) str * list bool)
  : option (result V) :=
  let '(tree_code_table, bits) := payload in
  match decode fuel (to01 bits) tree_code_table with
  | Some (Ok decoded_text) => Some (Ok (text_to_binary decoded_text))
  | Some (Raise e) => Some (Raise e)
  | None => None
  end.

End Video.
End Containers.

(** * Notions used to state the properties *)

(** [p] is a prefix of [q] *)
Definition is_prefix (p q : str) : Prop := exists r, q = p ++ r.

(** A binary digit *)
Definition is_bit (c : ascii) : Prop := c = "0"%char \/ c = "1"%char.

Section Notions.
Context {A : Type} (A_eq_dec : forall x y : A, {x = y} + {x <> y}).

(** The distinct symbols of a sequence, in order of first appearance *)
Fixpoint first_occurrences (symbols : list A) : list A :=
  match symbols with
  | [] => []
  | x :: symbols' => x :: remove A_eq_dec x (first_occurrences symbols')
  end.

(** One leaf per distinct symbol, weighted by its number of occurrences *)
Definition initial_leaves (symbols : list A) : list (@Node A) :=
  map (fun x => Node_init (Some x) (count_occ A_eq_dec symbols x))
      (first_occurrences symbols).

(** Positional construction, in the words of the specification: the two
    nodes at the front of the work list are merged into an internal node
    whose weight is the sum of theirs, which is appended at the back; the
    node that remains alone is the root.  No step looks at the weights. *)
Inductive positional_build : list (@Node A) -> @Node A -> Prop :=
| positional_root (n : Node) : positional_build [n] n
| positional_merge (l r : Node) (rest : list Node) (n : Node) :
    positional_build
      (rest ++ [mkNode None (weight l + weight r) (Some l) (Some r)]) n ->
    positional_build (l :: r :: rest) n.

(** The leaves of a tree from left to right, each with the path from the
    root: ["0"] for a left child, ["1"] for a right child *)
Fixpoint leaf_paths (node : @Node A) : list (option A * str) :=
  match node with
  | mkNode s _ None None => [(s, [])]
  | mkNode _ _ l r =>
      match l with
      | Some n => map (fun '(k, p) => (k, "0"%char :: p)) (leaf_paths n)
      | None => []
      end ++
      match r with
      | Some n => map (fun '(k, p) => (k, "1"%char :: p)) (leaf_paths n)
      | None => []
      end
  end.

Definition leaf_symbols (node : @Node A) : list (option A) :=
  map fst (leaf_paths node).

(** A list of distinct strings none of which is a prefix of another *)
Definition antichain (ps : list str) : Prop :=
  NoDup ps /\ forall p q, In p ps -> In q ps -> is_prefix p q -> p = q.

(** No codeword is a prefix of the codeword of another symbol *)
Definition prefix_free (table : Dict.t (option A) str) : Prop :=
  forall k1 c1 k2 c2,
    In (k1, c1) table -> In (k2, c2) table -> k1 <> k2 -> ~ is_prefix c1 c2.

(** A table that [decode] reads without ambiguity: every key is a symbol,
    no codeword is empty, and a codeword that is a prefix of another one
    belongs to the same entry. *)
Record prefix_code (table : Dict.t (option A) str) : Prop := {
  pc_symbol : forall k c, In (k, c) table -> k <> None;
  pc_nonempty : forall k c, In (k, c) table -> c <> [];
  pc_prefix : forall k1 c1 k2 c2,
    In (k1, c1) table -> In (k2, c2) table -> is_prefix c1 c2 ->
    k1 = k2 /\ c1 = c2
}.

(** The codeword of a symbol, empty when the symbol is not a key *)
Definition code_of (table : Dict.t (option A) str) (s : A) : str :=
  match Dict.get (@key_eq_dec A A_eq_dec) table (Some s) with
  | Some c => c
  | None => []
  end.

(** The state of the loop of [decode]: what is decoded, what is left *)
Definition decode_state : Type := (list A * str)%type.

(** One turn of the [while] of [decode] *)
Inductive decode_turn (table : Dict.t (option A) str)
  : decode_state -> decode_state -> Prop :=
| decode_turn_intro (d d' : list A) (m m' : str) :
    m <> [] -> decode_for table d m = Ok (d', m') ->
    decode_turn table (d, m) (d', m').

(** Any number of turns *)
Inductive decode_turns (table : Dict.t (option A) str)
  : decode_state -> decode_state -> Prop :=
| decode_turns_refl (s : decode_state) : decode_turns table s s
| decode_turns_step (s1 s2 s3 : decode_state) :
    decode_turn table s1 s2 -> decode_turns table s2 s3 ->
    decode_turns table s1 s3.

(** [build_tree] followed by [generate_code_table] on one object *)
Definition build_and_derive (symbols : list A) : @method A unit :=
  and_then (build_tree A_eq_dec symbols)
           (fun _ => generate_code_table A_eq_dec).

(** No entry of the table matches the front of the message *)
Definition no_match (table : Dict.t (option A) str) (m : str) : Prop :=
  forall k c, In (k, c) table -> startswith m c = false.

End Notions.

(** ** Shape of the trees *)

Section ShapeNotions.
Context {A : Type}.

(** A tree as [build_tree] makes them: a leaf carries a symbol and its
    count, and has no child; an internal node carries no symbol, has two
    children and weighs what they weigh together. *)
Inductive counted_tree (count : A -> nat) : @Node A -> Prop :=
| counted_leaf (s : A) :
    counted_tree count (mkNode (Some s) (count s) None None)
| counted_internal (l r : Node) :
    counted_tree count l -> counted_tree count r ->
    counted_tree count (mkNode None (weight l + weight r) (Some l) (Some r)).

(** The depths of the leaves, from left to right *)
Definition leaf_depths (node : @Node A) : list nat :=
  map (fun kp => length (snd kp)) (leaf_paths node).

(** No leaf of a node is deeper than a leaf of a node further in the list *)
Fixpoint depths_ordered (nodes : list (@Node A)) : Prop :=
  match nodes with
  | [] => True
  | node :: nodes' =>
      (forall d d', In d (leaf_depths node) ->
                    In d' (flat_map leaf_depths nodes') -> d <= d')
      /\ depths_ordered nodes'
  end.

(** The invariant of the work list of [build_tree]: depths grow along the
    list, and by one at most over the whole list. *)
Definition queue_balanced (nodes : list (@Node A)) : Prop :=
  depths_ordered nodes
  /\ forall d d', In d (flat_map leaf_depths nodes) ->
                  In d' (flat_map leaf_depths nodes) -> d' <= d + 1.

(** The weight that a count gives to a key of the table *)
Definition key_count (count : A -> nat) (k : option A) : nat :=
  match k with
  | Some s => count s
  | None => 0
  end.

End ShapeNotions.

(** * Properties *)

(** ** Strings *)

Lemma startswith_is_prefix (s code : str) :
  startswith s code = true <-> is_prefix code s.
Proof.
  revert s. induction code as [|c code IH]; intros s; simpl.
  - split; [intros _; now exists s | reflexivity].
  - destruct s as [|d s].
    + split; [discriminate | intros [r Hr]; discriminate].
    + rewrite andb_true_iff, Ascii.eqb_eq, IH. split.
      * intros [-> [r ->]]. now exists r.
      * intros [r Hr]. injection Hr as -> ->. split; [reflexivity | now exists r].
Qed.

Lemma startswith_app (code r : str) : startswith (code ++ r) code = true.
Proof. apply startswith_is_prefix. now exists r. Qed.

Lemma skipn_length_app {X : Type} (l r : list X) : skipn (length l) (l ++ r) = r.
Proof. induction l; simpl; auto. Qed.

Lemma is_prefix_comparable (p q r r' : str) :
  p ++ r = q ++ r' -> is_prefix p q \/ is_prefix q p.
Proof.
  revert q. induction p as [|a p IH]; intros q H.
  - left. now exists q.
  - destruct q as [|b q].
    + right. now exists (a :: p).
    + simpl in H. injection H as -> H.
      destruct (IH _ H) as [[t ->] | [t ->]]; [left | right]; now exists t.
Qed.

(** ** Dictionaries *)

Section DictFacts.
Context {K V : Type} (K_eq_dec : forall x y : K, {x = y} + {x <> y}).
Implicit Types (d : Dict.t K V) (k : K) (v : V).

Lemma get_In d k v : Dict.get K_eq_dec d k = Some v -> In (k, v) d.
Proof.
  induction d as [|[k' v'] d IH]; simpl; [discriminate|].
  destruct (K_eq_dec k k') as [->|]; intros H.
  - injection H as ->. now left.
  - right. auto.
Qed.

Lemma In_get d k v :
  NoDup (Dict.keys d) -> In (k, v) d -> Dict.get K_eq_dec d k = Some v.
Proof.
  induction d as [|[k' v'] d IH]; simpl; [contradiction|].
  intros Hnd [H|H]; inversion Hnd as [|? ? Hnotin Hnd']; subst.
  - injection H as -> ->. destruct (K_eq_dec k k); congruence.
  - destruct (K_eq_dec k k') as [->|]; [|now apply IH].
    exfalso. apply Hnotin. change k' with (fst (k', v)). now apply in_map.
Qed.

Lemma get_None d k : ~ In k (Dict.keys d) -> Dict.get K_eq_dec d k = None.
Proof.
  induction d as [|[k' v'] d IH]; simpl; [reflexivity|].
  intros H. destruct (K_eq_dec k k') as [->|]; [tauto|]. apply IH. tauto.
Qed.

Lemma set_fresh d k v :
  ~ In k (Dict.keys d) -> Dict.set K_eq_dec d k v = d ++ [(k, v)].
Proof.
  induction d as [|[k' v'] d IH]; simpl; [reflexivity|].
  intros H. destruct (K_eq_dec k k') as [->|]; [tauto|].
  rewrite IH; tauto.
Qed.

Lemma set_present (l : list K) (g : K -> V) k v :
  NoDup l -> In k l ->
  Dict.set K_eq_dec (map (fun y => (y, g y)) l) k v
  = map (fun y => (y, if K_eq_dec y k then v else g y)) l.
Proof.
  induction l as [|a l IH]; simpl; [contradiction|].
  intros Hnd Hin. inversion Hnd as [|? ? Hnotin Hnd']; subst.
  destruct (K_eq_dec k a) as [->|Hne].
  - destruct (K_eq_dec a a) as [_|]; [|congruence]. f_equal.
    apply map_ext_in. intros y Hy.
    destruct (K_eq_dec y a) as [->|]; [contradiction | reflexivity].
  - destruct (K_eq_dec a k) as [->|_]; [congruence|]. f_equal.
    apply IH; [assumption | destruct Hin; congruence].
Qed.

Lemma keys_set d k v :
  Dict.keys (Dict.set K_eq_dec d k v)
  = if Dict.mem K_eq_dec d k then Dict.keys d else Dict.keys d ++ [k].
Proof.
  unfold Dict.mem.
  induction d as [|[k' v'] d IH]; simpl; [reflexivity|].
  destruct (K_eq_dec k k') as [->|]; simpl; [reflexivity|].
  rewrite IH. now destruct (Dict.get K_eq_dec d k).
Qed.

End DictFacts.

(** ** Counting the symbols *)

Section BuildFacts.
Context {A : Type} (A_eq_dec : forall x y : A, {x = y} + {x <> y}).
Implicit Types (symbols : list A) (x y : A).

Local Abbreviation first_occurrences := (first_occurrences A_eq_dec).

Lemma first_occurrences_In symbols x :
  In x (first_occurrences symbols) <-> In x symbols.
Proof.
  induction symbols as [|a l IH]; simpl; [tauto|].
  split.
  - intros [->|H]; [now left|]. apply in_remove in H. right. tauto.
  - intros [->|H]; [now left|].
    destruct (A_eq_dec a x) as [->|Hne]; [now left|].
    right. apply in_in_remove; [congruence | tauto].
Qed.

Lemma NoDup_remove_elt (l : list A) x : NoDup l -> NoDup (remove A_eq_dec x l).
Proof.
  induction 1 as [|a l Hnotin Hnd IH]; simpl; [constructor|].
  destruct (A_eq_dec x a); [assumption|].
  constructor; [|assumption]. intros H. apply in_remove in H. tauto.
Qed.

Lemma first_occurrences_NoDup symbols : NoDup (first_occurrences symbols).
Proof.
  induction symbols as [|a l IH]; simpl; constructor.
  - apply remove_In.
  - now apply NoDup_remove_elt.
Qed.

Lemma first_occurrences_snoc symbols x :
  first_occurrences (symbols ++ [x])
  = if in_dec A_eq_dec x symbols then first_occurrences symbols
    else first_occurrences symbols ++ [x].
Proof.
  induction symbols as [|a l IH]; simpl; [reflexivity|].
  rewrite IH. destruct (A_eq_dec a x) as [->|Hne].
  - destruct (in_dec A_eq_dec x l); [reflexivity|].
    rewrite remove_app. simpl. destruct (A_eq_dec x x); [|congruence].
    now rewrite app_nil_r.
  - destruct (in_dec A_eq_dec x l) as [Hin|Hnotin];
      destruct (in_dec A_eq_dec x (a :: l)) as [Hin'|Hnotin'];
      simpl in *; try tauto.
    rewrite remove_app. simpl. destruct (A_eq_dec a x); [congruence|reflexivity].
Qed.

Lemma count_symbols_snoc symbols x :
  count_symbols A_eq_dec (symbols ++ [x])
  = count_symbol A_eq_dec (count_symbols A_eq_dec symbols) x.
Proof. unfold count_symbols. now rewrite fold_left_app. Qed.

(** [symbol_counts] after the first loop of [build_tree]: the distinct
    symbols in order of first appearance, each with its count. *)
Lemma count_symbols_spec symbols :
  count_symbols A_eq_dec symbols
  = map (fun x => (x, count_occ A_eq_dec symbols x)) (first_occurrences symbols).
Proof.
  induction symbols as [|x l IH] using rev_ind; [reflexivity|].
  rewrite count_symbols_snoc, IH, first_occurrences_snoc.
  unfold count_symbol, Dict.mem.
  destruct (in_dec A_eq_dec x l) as [Hin|Hnotin].
  - assert (Hget : Dict.get A_eq_dec
               (map (fun y => (y, count_occ A_eq_dec l y)) (first_occurrences l)) x
             = Some (count_occ A_eq_dec l x)).
    { apply In_get.
      - unfold Dict.keys. rewrite map_map. simpl. rewrite map_id.
        apply first_occurrences_NoDup.
      - apply in_map_iff. exists x. split; [reflexivity|].
        now apply first_occurrences_In. }
    rewrite Hget, Hget.
    rewrite set_present;
      [| apply first_occurrences_NoDup | now apply first_occurrences_In].
    apply map_ext. intros y. f_equal. rewrite count_occ_app. simpl.
    destruct (A_eq_dec y x) as [->|Hne].
    + destruct (A_eq_dec x x); [reflexivity | congruence].
    + destruct (A_eq_dec x y); [congruence | lia].
  - assert (Hfresh : ~ In x (Dict.keys
              (map (fun y => (y, count_occ A_eq_dec l y)) (first_occurrences l)))).
    { unfold Dict.keys. rewrite map_map. simpl. rewrite map_id.
      now rewrite first_occurrences_In. }
    rewrite (get_None A_eq_dec _ _ Hfresh).
    rewrite (set_fresh A_eq_dec _ _ 0 Hfresh).
    assert (Hget : forall d : Dict.t A nat, ~ In x (Dict.keys d) ->
              Dict.get A_eq_dec (d ++ [(x, 0)]) x = Some 0).
    { intros d. induction d as [|[k v] d IHd]; simpl.
      - destruct (A_eq_dec x x); congruence.
      - intros H. destruct (A_eq_dec x k) as [->|]; [tauto|]. apply IHd. tauto. }
    rewrite (Hget _ Hfresh).
    assert (Hset : forall (d : Dict.t A nat) v, ~ In x (Dict.keys d) ->
              Dict.set A_eq_dec (d ++ [(x, 0)]) x v = d ++ [(x, v)]).
    { intros d v. induction d as [|[k w] d IHd]; simpl.
      - destruct (A_eq_dec x x); congruence.
      - intros H. destruct (A_eq_dec x k) as [->|]; [tauto|].
        rewrite IHd; [reflexivity | tauto]. }
    rewrite (Hset _ _ Hfresh).
    rewrite map_app. simpl. f_equal.
    + apply map_ext_in. intros y Hy. f_equal. rewrite count_occ_app. simpl.
      destruct (A_eq_dec x y) as [->|]; [|lia].
      apply (proj1 (first_occurrences_In _ _)) in Hy. contradiction.
    + rewrite count_occ_app. simpl.
      rewrite (proj1 (count_occ_not_In A_eq_dec l x) Hnotin).
      destruct (A_eq_dec x x); [reflexivity | congruence].
Qed.

(** ** The merging loop *)

Lemma initial_nodes symbols :
  map (fun '(s, count) => Node_init (Some s) count) (count_symbols A_eq_dec symbols)
  = initial_leaves A_eq_dec symbols.
Proof. rewrite count_symbols_spec. unfold initial_leaves. now rewrite map_map. Qed.

(** The loop ends with the root alone, and builds it positionally. *)
Lemma merge_loop_positional (nodes : list (@Node A)) :
  nodes <> [] ->
  exists n, merge_loop nodes = [n] /\ positional_build nodes n.
Proof.
  funelim (merge_loop nodes); intros Hne.
  - congruence.
  - eexists. split; [reflexivity | constructor].
  - destruct H as [n' [Heq Hpos]]; [now destruct nodes|].
    exists n'. split; [assumption | now constructor].
Qed.

Lemma merge_loop_nil : merge_loop (@nil (@Node A)) = [].
Proof. now simp merge_loop. Qed.

Lemma leaf_symbols_merge (l r : @Node A) (w : nat) :
  leaf_symbols (mkNode None w (Some l) (Some r))
  = leaf_symbols l ++ leaf_symbols r.
Proof.
  unfold leaf_symbols. simpl. rewrite map_app, !map_map.
  f_equal; apply map_ext; now intros [k p].
Qed.

Lemma leaf_symbols_Node_init (s : option A) (w : nat) :
  leaf_symbols (Node_init s w) = [s].
Proof. reflexivity. Qed.

(** Merging keeps the leaves: those of the root are those of the work list. *)
Lemma positional_build_leaves (nodes : list (@Node A)) (n : Node) :
  positional_build nodes n ->
  Permutation (leaf_symbols n) (flat_map leaf_symbols nodes).
Proof.
  induction 1 as [n | l r rest n _ IH]; simpl.
  - now rewrite app_nil_r.
  - rewrite IH, flat_map_app. simpl.
    rewrite leaf_symbols_merge, app_nil_r.
    rewrite (app_assoc (leaf_symbols l)).
    apply Permutation_app_comm.
Qed.

(** With two nodes or more in the work list, the root is the last merge. *)
Lemma positional_build_internal (nodes : list (@Node A)) (n : Node) :
  positional_build nodes n -> 2 <= length nodes ->
  exists w l r, n = mkNode None w (Some l) (Some r).
Proof.
  induction 1 as [n | l r rest n Hpos IH]; simpl; intros Hlen; [lia|].
  destruct rest as [|a rest].
  - simpl in Hpos. inversion Hpos; subst; eauto.
  - apply IH. rewrite length_app. simpl. lia.
Qed.

Lemma initial_leaves_symbols symbols :
  flat_map leaf_symbols (initial_leaves A_eq_dec symbols)
  = map Some (first_occurrences symbols).
Proof.
  unfold initial_leaves. induction (first_occurrences symbols) as [|x l IH];
    simpl; [reflexivity | now rewrite IH].
Qed.

Lemma initial_leaves_length symbols :
  length (initial_leaves A_eq_dec symbols) = length (first_occurrences symbols).
Proof. unfold initial_leaves. apply length_map. Qed.

Lemma first_occurrences_nil symbols :
  first_occurrences symbols = [] -> symbols = [].
Proof. now destruct symbols. Qed.

(** What [build_tree] does on a sequence that is not empty *)
Lemma build_tree_root symbols (self : @HuffmanTree A) :
  symbols <> [] ->
  exists n,
    build_tree A_eq_dec symbols self
    = (Ok tt, {| root := Some n; code_table := code_table self |})
    /\ positional_build (initial_leaves A_eq_dec symbols) n.
Proof.
  intros Hne. unfold build_tree. rewrite initial_nodes.
  destruct (merge_loop_positional (nodes := initial_leaves A_eq_dec symbols))
    as [n [Heq Hpos]].
  - intros Hnil. apply Hne, first_occurrences_nil.
    apply (f_equal (@length _)) in Hnil. rewrite initial_leaves_length in Hnil.
    now apply length_zero_iff_nil.
  - exists n. now rewrite Heq.
Qed.

End BuildFacts.

(** ** The code table *)

Section TableFacts.
Context {A : Type} (A_eq_dec : forall x y : A, {x = y} + {x <> y}).

Local Abbreviation key_dec := (@key_eq_dec A A_eq_dec).

Lemma Node_induction (P : @Node A -> Prop) :
  (forall s w l r,
      (forall n, l = Some n -> P n) -> (forall n, r = Some n -> P n) ->
      P (mkNode s w l r)) ->
  forall n, P n.
Proof.
  intros H. fix IH 1. intros [s w l r]. apply H.
  - destruct l as [l'|]; [|discriminate].
    intros n Heq. injection Heq as <-. apply IH.
  - destruct r as [r'|]; [|discriminate].
    intros n Heq. injection Heq as <-. apply IH.
Qed.

Lemma fold_left_map {X Y Z : Type} (f : Z -> Y -> Z) (g : X -> Y) l z :
  fold_left f (map g l) z = fold_left (fun a x => f a (g x)) l z.
Proof. revert z. induction l; simpl; auto. Qed.

Lemma fold_left_ext {X Z : Type} (f f' : Z -> X -> Z) l z :
  (forall a x, f a x = f' a x) -> fold_left f l z = fold_left f' l z.
Proof. intros H. revert z. induction l; simpl; intros; [|rewrite H]; auto. Qed.

(** [_generate_code_table] assigns to the leaves, from left to right, the
    prefix followed by their path. *)
Lemma generate_code_table_paths (node : @Node A) :
  forall prefix table,
    _generate_code_table A_eq_dec node prefix table
    = fold_left (fun t kp => Dict.set key_dec t (fst kp) (prefix ++ snd kp))
        (leaf_paths node) table.
Proof.
  induction node as [s w l r IHl IHr] using Node_induction.
  intros prefix table.
  assert (Hl : forall n, l = Some n ->
    forall table, _generate_code_table A_eq_dec n (prefix ++ ["0"%char]) table
    = fold_left (fun t kp => Dict.set key_dec t (fst kp) (prefix ++ snd kp))
        (map (fun '(k, p) => (k, "0"%char :: p)) (leaf_paths n)) table).
  { intros n Hn t. rewrite (IHl n Hn), fold_left_map. apply fold_left_ext.
    intros a [k p]. simpl. now rewrite <- app_assoc. }
  assert (Hr : forall n, r = Some n ->
    forall table, _generate_code_table A_eq_dec n (prefix ++ ["1"%char]) table
    = fold_left (fun t kp => Dict.set key_dec t (fst kp) (prefix ++ snd kp))
        (map (fun '(k, p) => (k, "1"%char :: p)) (leaf_paths n)) table).
  { intros n Hn t. rewrite (IHr n Hn), fold_left_map. apply fold_left_ext.
    intros a [k p]. simpl. now rewrite <- app_assoc. }
  destruct l as [l'|], r as [r'|]; simpl.
  - now rewrite fold_left_app, (Hl l' eq_refl), (Hr r' eq_refl).
  - now rewrite app_nil_r, (Hl l' eq_refl).
  - now rewrite (Hr r' eq_refl).
  - now rewrite app_nil_r.
Qed.

Lemma fold_set_fresh (prefix : str) (l : list (option A * str)) :
  forall table : Dict.t (option A) str,
    NoDup (map fst l) ->
    (forall k, In k (map fst l) -> ~ In k (Dict.keys table)) ->
    fold_left (fun t kp => Dict.set key_dec t (fst kp) (prefix ++ snd kp)) l table
    = table ++ map (fun kp => (fst kp, prefix ++ snd kp)) l.
Proof.
  induction l as [|[k p] l IH]; simpl; intros table Hnd Hfresh.
  - now rewrite app_nil_r.
  - inversion Hnd as [|? ? Hnotin Hnd']; subst.
    rewrite set_fresh by auto. rewrite IH; [now rewrite <- app_assoc | assumption |].
    intros k' Hk'. unfold Dict.keys. rewrite map_app, in_app_iff. simpl.
    intros [H|[H|[]]]; [now apply (Hfresh k'); auto | congruence].
Qed.

(** On a tree whose leaves carry distinct symbols, the table that
    [generate_code_table] leaves is the list of the leaves with their paths. *)
Lemma generate_code_table_distinct (node : @Node A) :
  NoDup (leaf_symbols node) ->
  _generate_code_table A_eq_dec node [] [] = leaf_paths node.
Proof.
  intros Hnd. rewrite generate_code_table_paths, fold_set_fresh; auto.
  simpl. rewrite <- (map_id (leaf_paths node)) at 2.
  apply map_ext. now intros [k p].
Qed.

(** *** Paths to leaves form a prefix-free set *)

Lemma antichain_nil : antichain [].
Proof. split; [constructor | intros p q []]. Qed.

Lemma antichain_leaf : antichain [[]].
Proof.
  split; [repeat constructor; intros [] |].
  intros p q [<-|[]] [<-|[]] _. reflexivity.
Qed.

Lemma antichain_children (ps qs : list str) :
  antichain ps -> antichain qs ->
  antichain (map (cons "0"%char) ps ++ map (cons "1"%char) qs).
Proof.
  intros [Hnd1 Hp1] [Hnd2 Hp2]. split.
  - apply NoDup_app.
    + apply Finite.Injective_map_NoDup; [intros x y H; now injection H | assumption].
    + apply Finite.Injective_map_NoDup; [intros x y H; now injection H | assumption].
    + intros x Hx Hy. apply in_map_iff in Hx as [p [<- _]].
      apply in_map_iff in Hy as [q [Hq _]]. discriminate.
  - intros p q Hp Hq [t Ht].
    apply in_app_iff in Hp as [Hp|Hp]; apply in_map_iff in Hp as [p' [<- Hp']];
    apply in_app_iff in Hq as [Hq|Hq]; apply in_map_iff in Hq as [q' [<- Hq']];
    simpl in Ht; try discriminate; injection Ht as Ht; f_equal.
    + apply Hp1; auto. now exists t.
    + apply Hp2; auto. now exists t.
Qed.

Lemma leaf_paths_antichain (node : @Node A) :
  antichain (map snd (leaf_paths node)).
Proof.
  induction node as [s w l r IHl IHr] using Node_induction.
  assert (Hl : forall n, l = Some n ->
    map snd (map (fun '(k, p) => (k, "0"%char :: p)) (leaf_paths n))
    = map (cons "0"%char) (map snd (leaf_paths n))).
  { intros n _. rewrite !map_map. apply map_ext. now intros [k p]. }
  assert (Hr : forall n, r = Some n ->
    map snd (map (fun '(k, p) => (k, "1"%char :: p)) (leaf_paths n))
    = map (cons "1"%char) (map snd (leaf_paths n))).
  { intros n _. rewrite !map_map. apply map_ext. now intros [k p]. }
  destruct l as [l'|], r as [r'|]; simpl; rewrite ?map_app.
  - rewrite (Hl l' eq_refl), (Hr r' eq_refl).
    apply antichain_children; auto.
  - rewrite (Hl l' eq_refl). simpl.
    apply (antichain_children (qs := [])); auto using antichain_nil.
  - rewrite (Hr r' eq_refl).
    apply (antichain_children (ps := [])); auto using antichain_nil.
  - apply antichain_leaf.
Qed.

End TableFacts.

(** ** Encoding and decoding with the table of a built tree *)

Section CodecFacts.
Context {A : Type} (A_eq_dec : forall x y : A, {x = y} + {x <> y}).

Local Abbreviation key_dec := (@key_eq_dec A A_eq_dec).
Local Abbreviation code := (code_of A_eq_dec).

Lemma key_get (table : Dict.t (option A) str) (k : option A) :
  In k (Dict.keys table) -> exists c, Dict.get key_dec table k = Some c.
Proof.
  induction table as [|[k' c'] table IH]; simpl; [contradiction|].
  intros H. destruct (key_dec k k') as [->|Hne]; [eauto|].
  apply IH. destruct H; congruence.
Qed.

Lemma code_of_In (table : Dict.t (option A) str) (s : A) :
  In (Some s) (Dict.keys table) -> In (Some s, code table s) table.
Proof.
  intros H. destruct (key_get table _ H) as [c Hc].
  unfold code_of. rewrite Hc. now apply get_In in Hc.
Qed.

(** [encode] concatenates the codewords when every symbol is a key. *)
Lemma encode_loop_codes (table : Dict.t (option A) str) (symbols : list A) :
  forall encoded_symbols,
    (forall s, In s symbols -> In (Some s) (Dict.keys table)) ->
    encode_loop A_eq_dec table symbols encoded_symbols
    = Ok (encoded_symbols ++ flat_map (code table) symbols).
Proof.
  induction symbols as [|s symbols IH]; simpl; intros acc Hkeys.
  - now rewrite app_nil_r.
  - destruct (key_get table _ (Hkeys s (or_introl eq_refl))) as [c Hc].
    unfold code_of. rewrite Hc, IH by auto. now rewrite <- app_assoc.
Qed.

Lemma decode_while_nil fuel (table : Dict.t (option A) str) (d : list A) :
  decode_while fuel table d [] = Some (Ok d).
Proof. now destruct fuel. Qed.

Lemma decode_while_turn fuel (table : Dict.t (option A) str) (d : list A) m :
  m <> [] ->
  decode_while (S fuel) table d m
  = match decode_for table d m with
    | Ok (d', m') => decode_while fuel table d' m'
    | Raise e => Some (Raise e)
    end.
Proof. now destruct m. Qed.

Section Decoding.
Variable table : Dict.t (option A) str.
Hypothesis Hpc : prefix_code table.

(** One pass over the entries decodes a front part of a concatenation of
    codewords, and that part is not empty once the entry of the first symbol
    is among the entries tried. *)
Lemma decode_for_codes (items : Dict.t (option A) str) :
  forall (d symbols : list A),
    incl items table ->
    (forall s, In s symbols -> In (Some s, code table s) table) ->
    exists done rest,
      symbols = done ++ rest
      /\ decode_for items d (flat_map (code table) symbols)
         = Ok (d ++ done, flat_map (code table) rest)
      /\ (forall s symbols', symbols = s :: symbols' ->
            In (Some s, code table s) items -> done <> []).
Proof.
  induction items as [|[k c] items IH]; intros d symbols Hincl Hin.
  - exists [], symbols. simpl. rewrite app_nil_r. repeat split. intros ? ? _ [].
  - assert (Hkc : In (k, c) table) by (apply Hincl; now left).
    assert (Hincl' : incl items table) by (intros e He; apply Hincl; now right).
    simpl. destruct (startswith (flat_map (code table) symbols) c) eqn:Hsw.
    + apply startswith_is_prefix in Hsw as [t Ht].
      destruct symbols as [|s symbols'].
      * simpl in Ht. symmetry in Ht. apply app_eq_nil in Ht as [-> _].
        now destruct (@pc_nonempty _ _ Hpc _ _ Hkc).
      * simpl in Ht.
        assert (Hs : In (Some s, code table s) table) by (apply Hin; now left).
        assert (Heq : k = Some s /\ c = code table s).
        { destruct (is_prefix_comparable _ _ _ _ Ht) as [Hp|Hp].
          - destruct (@pc_prefix _ _ Hpc _ _ _ _ Hs Hkc Hp); auto.
          - destruct (@pc_prefix _ _ Hpc _ _ _ _ Hkc Hs Hp); auto. }
        destruct Heq as [-> ->].
        simpl. rewrite skipn_length_app.
        destruct (IH (d ++ [s]) symbols' Hincl') as [done [rest [-> [Hdec _]]]].
        { intros s' Hs'. apply Hin. now right. }
        exists (s :: done), rest. rewrite Hdec, <- app_assoc. simpl.
        repeat split. discriminate.
    + destruct (IH d symbols Hincl' Hin) as [done [rest [-> [Hdec Hprog]]]].
      exists done, rest. repeat split; [assumption|].
      intros s symbols' Heq [Hhd|Htl]; [|eauto].
      injection Hhd as -> ->. rewrite Heq in Hsw. simpl in Hsw.
      now rewrite startswith_app in Hsw.
Qed.

(** With one unit of fuel per symbol, the loop returns the symbols. *)
Lemma decode_while_codes fuel :
  forall (d symbols : list A),
    length symbols <= fuel ->
    (forall s, In s symbols -> In (Some s, code table s) table) ->
    decode_while fuel table d (flat_map (code table) symbols)
    = Some (Ok (d ++ symbols)).
Proof.
  induction fuel as [|fuel IH]; intros d symbols Hlen Hin.
  - destruct symbols; [|simpl in Hlen; lia]. simpl. now rewrite app_nil_r.
  - destruct symbols as [|s symbols'].
    { simpl. now rewrite app_nil_r. }
    rewrite decode_while_turn.
    + destruct (@decode_for_codes table d (s :: symbols') (incl_refl _) Hin)
        as [done [rest [Heq [Hdec Hprog]]]].
      rewrite Hdec.
      assert (Hne : done <> []).
      { apply (Hprog s symbols' eq_refl). apply Hin. now left. }
      rewrite IH.
      * now rewrite <- app_assoc, <- Heq.
      * apply (f_equal (@length _)) in Heq. rewrite length_app in Heq.
        simpl in Heq, Hlen. destruct done; [congruence|]. simpl in Heq. lia.
      * intros s' Hs'. apply Hin. rewrite Heq. apply in_app_iff. now right.
    + simpl. intros H. apply app_eq_nil in H as [H _].
      apply (@pc_nonempty _ _ Hpc (Some s) (code table s)); [|assumption].
      apply Hin. now left.
Qed.

End Decoding.

End CodecFacts.

(** ** The table of a built tree *)

Section BuiltTable.
Context {A : Type} (A_eq_dec : forall x y : A, {x = y} + {x <> y}).
Implicit Types (symbols : list A) (n : @Node A).

Local Abbreviation initial_leaves := (initial_leaves A_eq_dec).
Local Abbreviation first_occurrences := (first_occurrences A_eq_dec).

Lemma built_leaves symbols n :
  positional_build (initial_leaves symbols) n ->
  Permutation (leaf_symbols n) (map Some (first_occurrences symbols)).
Proof.
  intros H. rewrite <- initial_leaves_symbols. now apply positional_build_leaves.
Qed.

Lemma built_leaves_NoDup symbols n :
  positional_build (initial_leaves symbols) n -> NoDup (leaf_symbols n).
Proof.
  intros H. pose proof (Permutation_sym (@built_leaves symbols n H)) as Hperm.
  apply (Permutation_NoDup Hperm).
  apply Finite.Injective_map_NoDup; [intros x y Hxy; now injection Hxy|].
  apply first_occurrences_NoDup.
Qed.

Lemma two_distinct_first_occurrences symbols x y :
  In x symbols -> In y symbols -> x <> y ->
  2 <= length (first_occurrences symbols).
Proof.
  intros Hx Hy Hne.
  apply (first_occurrences_In A_eq_dec) in Hx, Hy.
  destruct (first_occurrences symbols) as [|a [|b l]]; simpl in *; [tauto| |lia].
  destruct Hx as [<-|[]], Hy as [<-|[]]. congruence.
Qed.

Lemma NoDup_snd_key {K V : Type} (l : list (K * V)) k1 k2 v :
  NoDup (map snd l) -> In (k1, v) l -> In (k2, v) l -> k1 = k2.
Proof.
  induction l as [|[k w] l IH]; simpl; [contradiction|].
  intros Hnd H1 H2. inversion Hnd as [|? ? Hnotin Hnd']; subst.
  assert (Hsnd : forall k', In (k', v) l -> In v (map snd l)).
  { intros k' Hk'. change v with (snd (k', v)). now apply in_map. }
  destruct H1 as [H1|H1], H2 as [H2|H2].
  - congruence.
  - injection H1 as -> ->. destruct Hnotin. eauto.
  - injection H2 as -> ->. destruct Hnotin. eauto.
  - auto.
Qed.

(** The leaves of a tree built from two distinct symbols or more, with
    their paths, are a table that [decode] reads without ambiguity. *)
Lemma built_prefix_code symbols n :
  positional_build (initial_leaves symbols) n ->
  2 <= length (first_occurrences symbols) ->
  prefix_code (leaf_paths n).
Proof.
  intros Hpos Hlen. split.
  - intros k c Hin Hk. subst k.
    assert (Hs : In None (leaf_symbols n)).
    { change None with (fst (@None A, c)). now apply in_map. }
    apply (Permutation_in _ (@built_leaves symbols n Hpos)) in Hs.
    apply in_map_iff in Hs as [x [Hx _]]. discriminate.
  - destruct (@positional_build_internal _ _ n Hpos) as [w [l [r ->]]].
    { now rewrite initial_leaves_length. }
    intros k c Hin. simpl in Hin.
    apply in_app_iff in Hin as [Hin|Hin];
      apply in_map_iff in Hin as [[k' p] [Heq _]]; injection Heq as _ <-;
      discriminate.
  - intros k1 c1 k2 c2 H1 H2 Hpre.
    destruct (leaf_paths_antichain n) as [Hnd Hanti].
    assert (Hc : c1 = c2).
    { apply Hanti; [| |assumption].
      - change c1 with (snd (k1, c1)). now apply in_map.
      - change c2 with (snd (k2, c2)). now apply in_map. }
    subst c2. split; [|reflexivity]. now apply (@NoDup_snd_key _ _ _ k1 k2 c1 Hnd H1 H2).
Qed.

(** [adaptive_huffman_encoding] on a sequence that is not empty: the tree
    is built positionally, the table lists its leaves with their paths, and
    the text is encoded with that table. *)
Lemma adaptive_huffman_encoding_built symbols :
  symbols <> [] ->
  exists n,
    positional_build (initial_leaves symbols) n
    /\ adaptive_huffman_encoding A_eq_dec symbols
       = Ok (flat_map (code_of A_eq_dec (leaf_paths n)) symbols, leaf_paths n).
Proof.
  intros Hne.
  destruct (@build_tree_root _ A_eq_dec symbols HuffmanTree_init Hne) as [n [Hbuild Hpos]].
  exists n. split; [assumption|].
  unfold adaptive_huffman_encoding, and_then. rewrite Hbuild.
  unfold generate_code_table, encode. simpl.
  rewrite (@generate_code_table_distinct _ A_eq_dec n (@built_leaves_NoDup symbols n Hpos)).
  rewrite encode_loop_codes; [reflexivity|].
  intros s Hs. pose proof (Permutation_sym (@built_leaves symbols n Hpos)) as Hperm.
  apply (Permutation_in _ Hperm). apply in_map.
  now apply first_occurrences_In.
Qed.

End BuiltTable.

(** ** The loop of [decode] *)

Section DecodeLoop.
Context {A : Type}.
Implicit Types (table : Dict.t (option A) str) (d : list A) (m : str).

Lemma decode_while_mono table fuel fuel' d m r :
  decode_while fuel table d m = Some r -> fuel <= fuel' ->
  decode_while fuel' table d m = Some r.
Proof.
  revert fuel' d m. induction fuel as [|fuel IH]; intros fuel' d m Hdec Hle.
  - destruct m; [|discriminate]. now rewrite decode_while_nil.
  - destruct m as [|a m]; [now rewrite decode_while_nil|].
    destruct fuel' as [|fuel']; [lia|].
    rewrite decode_while_turn in Hdec |- * by discriminate.
    destruct (decode_for table d (a :: m)) as [[d' m']|e]; [|assumption].
    apply IH; [assumption | lia].
Qed.

(** What [decode] returns does not depend on the fuel. *)
Lemma decode_returns_functional table m r r' :
  decode_returns m table r -> decode_returns m table r' -> r = r'.
Proof.
  intros [f Hf] [f' Hf']. unfold decode in *.
  apply decode_while_mono with (fuel' := f + f') in Hf; [|lia].
  apply decode_while_mono with (fuel' := f + f') in Hf'; [|lia].
  congruence.
Qed.

Lemma no_match_for table m (items : Dict.t (option A) str) d :
  no_match table m -> incl items table -> decode_for items d m = Ok (d, m).
Proof.
  intros Hno. induction items as [|[k c] items IH]; intros Hincl; simpl.
  - reflexivity.
  - rewrite (Hno k c) by (apply Hincl; now left).
    apply IH. intros e He. apply Hincl. now right.
Qed.

(** A turn in which no entry matches changes nothing, so that the loop
    goes on for ever. *)
Lemma no_match_diverges table m :
  m <> [] -> no_match table m ->
  forall fuel d, decode_while fuel table d m = None.
Proof.
  intros Hne Hno. induction fuel as [|fuel IH]; intros d.
  - now destruct m.
  - rewrite decode_while_turn by assumption.
    rewrite (@no_match_for table m table d Hno (incl_refl _)). apply IH.
Qed.

Lemma decode_turns_diverge table (s1 s2 : @decode_state A) :
  decode_turns table s1 s2 ->
  (forall fuel, decode_while fuel table (fst s2) (snd s2) = None) ->
  forall fuel, decode_while fuel table (fst s1) (snd s1) = None.
Proof.
  induction 1 as [s | s1 s2 s3 Hturn _ IH]; intros Hdiv; [assumption|].
  destruct Hturn as [d d' m m' Hne Hfor]. simpl in *.
  intros [|fuel].
  - now destruct m.
  - rewrite decode_while_turn, Hfor by assumption. now apply IH.
Qed.

Lemma decode_while_turns table fuel :
  forall d m r,
    decode_while fuel table d m = Some (Ok r) ->
    decode_turns table (d, m) (r, []).
Proof.
  induction fuel as [|fuel IH]; intros d m r Hdec.
  - destruct m; [|discriminate]. injection Hdec as ->. constructor.
  - destruct m as [|a m].
    + rewrite decode_while_nil in Hdec. injection Hdec as ->. constructor.
    + rewrite decode_while_turn in Hdec by discriminate.
      destruct (decode_for table d (a :: m)) as [[d' m']|e] eqn:Hfor;
        [|discriminate].
      apply decode_turns_step with (s2 := (d', m')); [|now apply IH].
      now constructor.
Qed.

Lemma decode_turns_while table (s : @decode_state A) r :
  decode_turns table s (r, []) ->
  exists fuel, decode_while fuel table (fst s) (snd s) = Some (Ok r).
Proof.
  remember (r, @nil ascii) as s' eqn:Hs'.
  induction 1 as [s | s1 s2 s3 Hturn _ IH]; subst.
  - exists 0. reflexivity.
  - destruct (IH eq_refl) as [fuel Hfuel].
    destruct Hturn as [d d' m m' Hne Hfor]. simpl in *.
    exists (S fuel). now rewrite decode_while_turn, Hfor.
Qed.

End DecodeLoop.

(** ** Inputs with a single distinct symbol *)

Section SingleSymbol.
Context {A : Type} (A_eq_dec : forall x y : A, {x = y} + {x <> y}).

Lemma first_occurrences_repeat (x : A) (n : nat) :
  first_occurrences A_eq_dec (repeat x (S n)) = [x].
Proof.
  induction n as [|n IH]; [reflexivity|].
  change (repeat x (S (S n))) with (x :: repeat x (S n)).
  cbn [first_occurrences]. rewrite IH. simpl.
  now destruct (A_eq_dec x x).
Qed.

Lemma count_occ_repeat_same (x : A) (n : nat) :
  count_occ A_eq_dec (repeat x n) x = n.
Proof.
  induction n as [|n IH]; simpl; [reflexivity|].
  destruct (A_eq_dec x x); congruence.
Qed.

Lemma initial_leaves_repeat (x : A) (n : nat) :
  initial_leaves A_eq_dec (repeat x (S n)) = [Node_init (Some x) (S n)].
Proof.
  unfold initial_leaves. rewrite first_occurrences_repeat.
  pose proof (count_occ_repeat_same x (S n)) as Hcount.
  cbn [map]. now rewrite Hcount.
Qed.

Lemma positional_build_single (n n' : @Node A) :
  positional_build [n] n' -> n' = n.
Proof. now inversion 1. Qed.

Lemma code_of_empty_codeword (x : A) (symbols : list A) :
  flat_map (code_of A_eq_dec [(Some x, [])]) symbols = [].
Proof.
  induction symbols as [|s symbols IH]; simpl; [reflexivity|].
  rewrite IH, app_nil_r. unfold code_of. cbn [Dict.get].
  now destruct (key_eq_dec A_eq_dec (Some s) (Some x)).
Qed.

End SingleSymbol.

Lemma positional_build_functional {A : Type} (nodes : list (@Node A)) (n n' : Node) :
  positional_build nodes n -> positional_build nodes n' -> n' = n.
Proof.
  intros H. revert n'. induction H as [n | l r rest n _ IH]; intros n' H'.
  - now apply positional_build_single.
  - inversion H'; subst. now apply IH.
Qed.

(** [build_tree] then [generate_code_table] on a sequence that is not empty *)
Lemma build_and_derive_built {A : Type}
    (A_eq_dec : forall x y : A, {x = y} + {x <> y})
    (symbols : list A) (self : @HuffmanTree A) :
  symbols <> [] ->
  exists n,
    positional_build (initial_leaves A_eq_dec symbols) n
    /\ build_and_derive A_eq_dec symbols self
       = (Ok tt, {| root := Some n; code_table := leaf_paths n |}).
Proof.
  intros Hne.
  destruct (@build_tree_root _ A_eq_dec symbols self Hne) as [n [Hbuild Hpos]].
  exists n. split; [assumption|].
  unfold build_and_derive, and_then. rewrite Hbuild.
  unfold generate_code_table. simpl.
  now rewrite (@generate_code_table_distinct _ A_eq_dec n
                 (@built_leaves_NoDup _ A_eq_dec symbols n Hpos)).
Qed.

Lemma build_tree_nil {A : Type}
    (A_eq_dec : forall x y : A, {x = y} + {x <> y}) (self : @HuffmanTree A) :
  build_tree A_eq_dec [] self = (Raise IndexError, self).
Proof. unfold build_tree. simpl. now rewrite merge_loop_nil. Qed.

(** * The claims *)

(** ** Round trip *)

(** Round trip on inputs with two distinct symbols or more: the text is
    encoded, and [decode], with one turn of its loop per symbol at most,
    returns the text from the encoded message and the table. *)
Theorem round_trip_two_symbols {A : Type}
    (A_eq_dec : forall x y : A, {x = y} + {x <> y})
    (symbols : list A) (x y : A) :
  In x symbols -> In y symbols -> x <> y ->
  exists encoded_text table,
    adaptive_huffman_encoding A_eq_dec symbols = Ok (encoded_text, table)
    /\ decode (length symbols) encoded_text table = Some (Ok symbols)
    /\ forall r, decode_returns encoded_text table r -> r = Ok symbols.
Proof.
  intros Hx Hy Hxy.
  assert (Hne : symbols <> []) by (intros ->; contradiction).
  destruct (@adaptive_huffman_encoding_built _ A_eq_dec symbols Hne)
    as [n [Hpos Henc]].
  pose proof (@built_prefix_code _ A_eq_dec symbols n Hpos
                (@two_distinct_first_occurrences _ A_eq_dec symbols x y Hx Hy Hxy)) as Hpc.
  assert (Hdec : decode (length symbols)
                   (flat_map (code_of A_eq_dec (leaf_paths n)) symbols)
                   (leaf_paths n) = Some (Ok symbols)).
  { unfold decode.
    rewrite (@decode_while_codes _ A_eq_dec (leaf_paths n) Hpc); auto.
    intros s Hs. apply code_of_In.
    apply (Permutation_in _ (Permutation_sym (@built_leaves _ A_eq_dec symbols n Hpos))).
    apply in_map. now apply first_occurrences_In. }
  exists (flat_map (code_of A_eq_dec (leaf_paths n)) symbols), (leaf_paths n).
  repeat split; [assumption | assumption |].
  intros r Hr. apply (decode_returns_functional Hr). now exists (length symbols).
Qed.

Lemma round_trip_two_symbols_witness :
  exists encoded_text table,
    adaptive_huffman_encoding ascii_dec ["a"; "b"; "a"]%char
    = Ok (encoded_text, table)
    /\ decode 3 encoded_text table = Some (Ok ["a"; "b"; "a"]%char)
    /\ forall r, decode_returns encoded_text table r
                 -> r = Ok ["a"; "b"; "a"]%char.
Proof.
  apply (@round_trip_two_symbols ascii ascii_dec ["a"; "b"; "a"]%char
           "a"%char "b"%char).
  - simpl. left. reflexivity.
  - simpl. right. left. reflexivity.
  - discriminate.
Defined.

Lemma adaptive_huffman_encoding_repeat {A : Type}
    (A_eq_dec : forall x y : A, {x = y} + {x <> y}) (x : A) (n : nat) :
  adaptive_huffman_encoding A_eq_dec (repeat x (S n)) = Ok ([], [(Some x, [])]).
Proof.
  destruct (@adaptive_huffman_encoding_built _ A_eq_dec (repeat x (S n)))
    as [n0 [Hpos Henc]]; [discriminate|].
  rewrite initial_leaves_repeat in Hpos.
  apply positional_build_single in Hpos. subst n0.
  rewrite Henc. simpl leaf_paths. now rewrite code_of_empty_codeword.
Qed.

(** C1: the round trip fails on every input made of a single symbol,
    repeated: the symbol gets the empty codeword, the encoded text is empty,
    and [decode] returns the empty text, not the input. *)
Theorem round_trip_single_symbol {A : Type}
    (A_eq_dec : forall x y : A, {x = y} + {x <> y}) (x : A) (n : nat) :
  adaptive_huffman_encoding A_eq_dec (repeat x (S n)) = Ok ([], [(Some x, [])])
  /\ (forall fuel, decode fuel [] [(Some x, [])] = Some (Ok []))
  /\ ~ decode_returns [] [(Some x, [])] (Ok (repeat x (S n))).
Proof.
  assert (Hdec : forall fuel, decode fuel [] [(Some x, @nil ascii)] = Some (Ok [])).
  { intros fuel. apply decode_while_nil. }
  repeat split; [apply adaptive_huffman_encoding_repeat | assumption |].
  intros [fuel Hfuel]. rewrite Hdec in Hfuel. discriminate.
Qed.

Lemma repeat_or_two_distinct {A : Type}
    (A_eq_dec : forall x y : A, {x = y} + {x <> y}) (symbols : list A) :
  symbols <> [] ->
  (exists x n, symbols = repeat x (S n))
  \/ (exists x y, In x symbols /\ In y symbols /\ x <> y).
Proof.
  induction symbols as [|a symbols IH]; intros Hne; [congruence|].
  destruct symbols as [|b symbols].
  - left. now exists a, 0.
  - destruct IH as [[x [n Hrep]] | [x [y [Hx [Hy Hxy]]]]]; [discriminate | |].
    + rewrite Hrep. destruct (A_eq_dec a x) as [->|Hax].
      * left. now exists x, (S n).
      * right. exists a, x. repeat split; [now left | right; now left | assumption].
    + right. exists x, y. repeat split; [now right | now right | assumption].
Qed.

(** The round trip holds for the inputs with two distinct symbols or more,
    and for no other input. *)
Theorem round_trip_iff_two_symbols {A : Type}
    (A_eq_dec : forall x y : A, {x = y} + {x <> y}) (symbols : list A) :
  (exists encoded_text table,
      adaptive_huffman_encoding A_eq_dec symbols = Ok (encoded_text, table)
      /\ decode_returns encoded_text table (Ok symbols))
  <-> (exists x y, In x symbols /\ In y symbols /\ x <> y).
Proof.
  split.
  - intros [encoded_text [table [Henc Hdec]]].
    destruct symbols as [|a symbols].
    { unfold adaptive_huffman_encoding, and_then in Henc.
      rewrite build_tree_nil in Henc. discriminate. }
    destruct (@repeat_or_two_distinct _ A_eq_dec (a :: symbols))
      as [[x [n Hrep]] | Htwo]; [discriminate | | assumption].
    rewrite Hrep in Henc, Hdec.
    rewrite adaptive_huffman_encoding_repeat in Henc. injection Henc as <- <-.
    destruct Hdec as [fuel Hfuel]. unfold decode in Hfuel.
    rewrite decode_while_nil in Hfuel. discriminate.
  - intros [x [y [Hx [Hy Hxy]]]].
    destruct (@round_trip_two_symbols _ A_eq_dec symbols x y Hx Hy Hxy)
      as [encoded_text [table [Henc [Hdec _]]]].
    exists encoded_text, table. split; [assumption|]. now exists (length symbols).
Qed.

(** ** Single symbol *)

(** C3, as amended: on an input made of one symbol [x], repeated,
    [build_tree] yields the tree with the single leaf [x], weighted by the
    length of the input, and [generate_code_table] assigns [x] the path
    from the root to that leaf, which is the empty string. *)
Theorem single_symbol_table {A : Type}
    (A_eq_dec : forall x y : A, {x = y} + {x <> y})
    (x : A) (n : nat) (self : @HuffmanTree A) :
  build_and_derive A_eq_dec (repeat x (S n)) self
  = (Ok tt, {| root := Some (mkNode (Some x) (S n) None None);
               code_table := [(Some x, [])] |}).
Proof.
  destruct (@build_and_derive_built _ A_eq_dec (repeat x (S n)) self)
    as [n0 [Hpos Heq]]; [discriminate|].
  rewrite initial_leaves_repeat in Hpos.
  apply positional_build_single in Hpos. now subst n0.
Qed.

(** C3, as stated, fails on [x; x; x]: the codeword of [x] is not a
    non-empty fallback, and the round trip does not hold. *)
Lemma single_symbol_counterexample :
  ~ exists encoded_text table c,
      adaptive_huffman_encoding ascii_dec ["x"; "x"; "x"]%char
      = Ok (encoded_text, table)
      /\ Dict.get (key_eq_dec ascii_dec) table (Some "x"%char) = Some c
      /\ c <> []
      /\ decode_returns encoded_text table (Ok ["x"; "x"; "x"]%char).
Proof.
  intros [encoded_text [table [c [Henc [Hget [Hc _]]]]]].
  pose proof (adaptive_huffman_encoding_repeat ascii_dec "x"%char 2) as Henc'.
  simpl repeat in Henc'. rewrite Henc' in Henc.
  injection Henc as <- <-. simpl in Hget. injection Hget as <-. now apply Hc.
Qed.

(** ** Construction of the tree *)

(** C4: on a sequence that is not empty, [build_tree] sets the root to the
    node that the positional construction reaches from one leaf per
    distinct symbol, in order of first appearance and weighted by its count:
    the two front nodes are merged, whatever their weights, into a node
    whose weight is their sum and which goes to the back, until one node
    remains.  That node is unique. *)
Theorem build_tree_positional {A : Type}
    (A_eq_dec : forall x y : A, {x = y} + {x <> y})
    (symbols : list A) (self : @HuffmanTree A) :
  symbols <> [] ->
  exists n,
    build_tree A_eq_dec symbols self
    = (Ok tt, {| root := Some n; code_table := code_table self |})
    /\ positional_build (initial_leaves A_eq_dec symbols) n
    /\ forall n', positional_build (initial_leaves A_eq_dec symbols) n' -> n' = n.
Proof.
  intros Hne.
  destruct (@build_tree_root _ A_eq_dec symbols self Hne) as [n [Hbuild Hpos]].
  exists n. repeat split; [assumption | assumption |].
  intros n' Hpos'. now apply (positional_build_functional Hpos).
Qed.

Lemma build_tree_positional_witness :
  ["a"; "a"; "b"; "b"; "b"; "c"; "c"]%char <> []
  /\ exists n,
      build_tree ascii_dec ["a"; "a"; "b"; "b"; "b"; "c"; "c"]%char HuffmanTree_init
      = (Ok tt, {| root := Some n; code_table := [] |})
      /\ positional_build
           (initial_leaves ascii_dec ["a"; "a"; "b"; "b"; "b"; "c"; "c"]%char) n
      /\ forall n',
           positional_build
             (initial_leaves ascii_dec ["a"; "a"; "b"; "b"; "b"; "c"; "c"]%char) n'
           -> n' = n.
Proof.
  split; [discriminate|].
  apply (@build_tree_positional ascii ascii_dec
           ["a"; "a"; "b"; "b"; "b"; "c"; "c"]%char HuffmanTree_init).
  discriminate.
Defined.

(** The merge is by position, not by weight: in [aaaabc] the leaves [a]
    (weight 4) and [b] (weight 1) are merged first although [b] and [c]
    are the two lightest, and [a], the most frequent symbol, gets a codeword
    of two bits. *)
Example build_tree_not_weight_minimal :
  build_and_derive ascii_dec ["a"; "a"; "a"; "a"; "b"; "c"]%char HuffmanTree_init
  = (Ok tt,
     {| root := Some (mkNode None 6
                  (Some (mkNode (Some "c"%char) 1 None None))
                  (Some (mkNode None 5
                     (Some (mkNode (Some "a"%char) 4 None None))
                     (Some (mkNode (Some "b"%char) 1 None None)))));
        code_table := [(Some "c"%char, ["0"%char]);
                       (Some "a"%char, ["1"%char; "0"%char]);
                       (Some "b"%char, ["1"%char; "1"%char])] |}).
Proof. reflexivity. Qed.

(** C6: on the empty sequence [build_tree] raises, from [nodes[0]] on the
    empty work list, and leaves the object as it was, without a root;
    [adaptive_huffman_encoding] raises with it, and so does
    [compress_image] on an image without bytes, so that no container is
    produced. *)
Theorem build_tree_empty_input {A : Type}
    (A_eq_dec : forall x y : A, {x = y} + {x <> y}) (self : @HuffmanTree A) :
  build_tree A_eq_dec [] self = (Raise IndexError, self)
  /\ fst (build_tree A_eq_dec [] HuffmanTree_init) = Raise IndexError
  /\ root (snd (build_tree A_eq_dec [] HuffmanTree_init)) = None
  /\ adaptive_huffman_encoding A_eq_dec [] = Raise IndexError
  /\ forall width height channels,
       compress_image width height channels [] = Raise IndexError.
Proof.
  repeat split; unfold compress_image, adaptive_huffman_encoding, and_then;
    simpl; now rewrite ?build_tree_nil.
Qed.

(** ** The code table *)

(** C5: for an input with two distinct symbols or more, the tree is built,
    the table derived from it has the distinct symbols of the input as its
    keys, and no codeword of the table is a prefix of the codeword of
    another symbol. *)
Theorem derived_table_prefix_free {A : Type}
    (A_eq_dec : forall x y : A, {x = y} + {x <> y})
    (symbols : list A) (x y : A) (self : @HuffmanTree A) :
  In x symbols -> In y symbols -> x <> y ->
  exists n table,
    build_and_derive A_eq_dec symbols self
    = (Ok tt, {| root := Some n; code_table := table |})
    /\ Permutation (Dict.keys table)
         (map Some (first_occurrences A_eq_dec symbols))
    /\ prefix_free table.
Proof.
  intros Hx Hy Hxy.
  assert (Hne : symbols <> []) by (intros ->; contradiction).
  destruct (@build_and_derive_built _ A_eq_dec symbols self Hne)
    as [n [Hpos Heq]].
  exists n, (leaf_paths n). repeat split; [assumption | |].
  - apply (@built_leaves _ A_eq_dec symbols n Hpos).
  - pose proof (@built_prefix_code _ A_eq_dec symbols n Hpos
        (@two_distinct_first_occurrences _ A_eq_dec symbols x y Hx Hy Hxy)) as Hpc.
    intros k1 c1 k2 c2 H1 H2 Hk Hpre.
    now destruct (@pc_prefix _ _ Hpc k1 c1 k2 c2 H1 H2 Hpre).
Qed.

Lemma derived_table_prefix_free_witness :
  exists n table,
    build_and_derive ascii_dec ["a"; "b"; "c"]%char HuffmanTree_init
    = (Ok tt, {| root := Some n; code_table := table |})
    /\ Permutation (Dict.keys table)
         (map Some (first_occurrences ascii_dec ["a"; "b"; "c"]%char))
    /\ prefix_free table.
Proof.
  apply (@derived_table_prefix_free ascii ascii_dec ["a"; "b"; "c"]%char
           "a"%char "b"%char HuffmanTree_init).
  - simpl. left. reflexivity.
  - simpl. right. left. reflexivity.
  - discriminate.
Defined.

(** C9: [build_tree] followed by [generate_code_table] is a function of
    the input sequence alone: whatever the object held before, two runs on
    the same sequence end with the same tree and the same table, or raise
    the same exception. *)
Theorem build_and_derive_deterministic {A : Type}
    (A_eq_dec : forall x y : A, {x = y} + {x <> y})
    (symbols : list A) (self1 self2 : @HuffmanTree A) :
  match build_and_derive A_eq_dec symbols self1,
        build_and_derive A_eq_dec symbols self2 with
  | (Ok _, tree1), (Ok _, tree2) => tree1 = tree2
  | (Raise e1, _), (Raise e2, _) => e1 = e2
  | _, _ => False
  end.
Proof.
  destruct symbols as [|s symbols].
  - unfold build_and_derive, and_then. now rewrite !build_tree_nil.
  - destruct (@build_and_derive_built _ A_eq_dec (s :: symbols) self1)
      as [n1 [Hpos1 ->]]; [discriminate|].
    destruct (@build_and_derive_built _ A_eq_dec (s :: symbols) self2)
      as [n2 [Hpos2 ->]]; [discriminate|].
    now rewrite (positional_build_functional Hpos1 Hpos2).
Qed.

(** C10: [generate_code_table] clears the table before it fills it: the
    table it leaves is the one derived from the root starting from the empty
    table, whatever the table held before, and a second call changes
    nothing. *)
Theorem generate_code_table_resets {A : Type}
    (A_eq_dec : forall x y : A, {x = y} + {x <> y})
    (r : option (@Node A)) (stale : Dict.t (option A) str) :
  generate_code_table A_eq_dec {| root := r; code_table := stale |}
  = generate_code_table A_eq_dec {| root := r; code_table := [] |}
  /\ and_then (generate_code_table A_eq_dec)
       (fun _ => generate_code_table A_eq_dec)
       {| root := r; code_table := stale |}
     = generate_code_table A_eq_dec {| root := r; code_table := stale |}
  /\ match r with
     | Some node =>
         code_table (snd (generate_code_table A_eq_dec
                            {| root := r; code_table := stale |}))
         = _generate_code_table A_eq_dec node [] []
     | None => True
     end.
Proof. unfold and_then, generate_code_table. now destruct r. Qed.

(** Without the reset the entries would stay: the recursive helper alone
    keeps what the table held. *)
Example generate_code_table_helper_keeps_entries :
  _generate_code_table ascii_dec (mkNode (Some "a"%char) 1 None None) []
    [(Some "z"%char, ["1"%char])]
  = [(Some "z"%char, ["1"%char]); (Some "a"%char, [])].
Proof. reflexivity. Qed.

(** ** Messages that are not concatenations of codewords *)

(** C2, as amended: [decode] has no check for a message out of step with
    the table.  When, after some turns of the loop, what is left of the
    message is not empty and no codeword of the table is a prefix of it,
    [decode] returns nothing: neither an error nor a truncated text; the
    loop goes on without consuming anything.  And [decode] returns a text
    exactly when the turns of its loop have consumed the whole message. *)
Theorem decode_out_of_step {A : Type}
    (table : Dict.t (option A) str) (encoded_message : str)
    (d : list A) (m : str) :
  decode_turns table ([], encoded_message) (d, m) ->
  m <> [] ->
  no_match table m ->
  decode_diverges encoded_message table
  /\ (forall r, ~ decode_returns encoded_message table r)
  /\ (forall message text,
        decode_returns message table (Ok text)
        <-> decode_turns table ([], message) (text, [])).
Proof.
  intros Hturns Hne Hno.
  assert (Hdiv : decode_diverges encoded_message table).
  { intros fuel. unfold decode.
    apply (@decode_turns_diverge _ table ([], encoded_message) (d, m) Hturns).
    intros fuel'. simpl. now apply no_match_diverges. }
  repeat split.
  - assumption.
  - intros r [fuel Hfuel]. rewrite Hdiv in Hfuel. discriminate.
  - intros [fuel Hfuel]. now apply (@decode_while_turns _ table fuel).
  - intros H. apply decode_turns_while in H. exact H.
Qed.

(** The table of the text [aabbbcc], and a message cut in the middle of a
    codeword: two turns decode [aa], and the [1] that is left matches no
    codeword. *)
Lemma decode_out_of_step_witness :
  let table := [(Some "c", ["0"]); (Some "a", ["1"; "0"]); (Some "b", ["1"; "1"])]%char in
  let encoded_message := ["1"; "0"; "1"; "0"; "1"]%char in
  decode_diverges encoded_message table
  /\ (forall r, ~ decode_returns encoded_message table r)
  /\ (forall message text,
        decode_returns message table (Ok text)
        <-> decode_turns table ([], message) (text, [])).
Proof.
  apply (@decode_out_of_step ascii
           [(Some "c", ["0"]); (Some "a", ["1"; "0"]); (Some "b", ["1"; "1"])]%char
           ["1"; "0"; "1"; "0"; "1"]%char ["a"; "a"]%char ["1"]%char).
  - apply decode_turns_step with (s2 := (["a"]%char, ["1"; "0"; "1"]%char)).
    { constructor; [discriminate | reflexivity]. }
    apply decode_turns_step with (s2 := (["a"; "a"]%char, ["1"]%char)).
    { constructor; [discriminate | reflexivity]. }
    apply decode_turns_refl.
  - discriminate.
  - intros k c [H | [H | [H | []]]]; injection H as <- <-; reflexivity.
Defined.

(** C2, as stated, fails: with the table of [aabbbcc], the message [1] is
    not empty and no codeword is a prefix of it, yet [decode] raises no
    exception, however long it runs. *)
Lemma decode_desync_counterexample :
  let table := [(Some "c", ["0"]); (Some "a", ["1"; "0"]); (Some "b", ["1"; "1"])]%char in
  let encoded_message := ["1"]%char in
  encoded_message <> []
  /\ no_match table encoded_message
  /\ ~ exists e : exn, decode_returns encoded_message table (Raise e).
Proof.
  simpl. repeat split.
  - discriminate.
  - intros k c [H | [H | [H | []]]]; injection H as <- <-; reflexivity.
  - intros [e [fuel Hfuel]]. unfold decode in Hfuel.
    rewrite no_match_diverges in Hfuel; [discriminate | discriminate |].
    intros k c [H | [H | [H | []]]]; injection H as <- <-; reflexivity.
Qed.

(** ** The image container *)

Lemma bin_digits_bits (p : positive) : Forall is_bit (bin_digits p).
Proof.
  induction p as [p IH|p IH|]; simpl.
  - apply Forall_app. split; [assumption|].
    constructor; [now right | constructor].
  - apply Forall_app. split; [assumption|].
    constructor; [now left | constructor].
  - constructor; [now right | constructor].
Qed.

Lemma format_08b_bits (byte : N) : Forall is_bit (format_08b byte).
Proof.
  unfold format_08b. apply Forall_app. split.
  - apply Forall_forall. intros c Hc. apply repeat_spec in Hc. now left.
  - destruct byte; [|apply bin_digits_bits].
    constructor; [now left | constructor].
Qed.

Lemma format_08b_length_ge (byte : N) : 8 <= length (format_08b byte).
Proof. unfold format_08b. rewrite length_app, repeat_length. lia. Qed.

Lemma bin_digits_length (p : positive) :
  (p < 256)%positive -> length (bin_digits p) <= 8.
Proof.
  intros H.
  do 8 (destruct p as [p|p|]; simpl; rewrite ?length_app; simpl; try lia).
Qed.

(** A byte is written with exactly eight digits. *)
Lemma format_08b_length (byte : N) :
  (byte < 256)%N -> length (format_08b byte) = 8.
Proof.
  intros H. destruct byte as [|p]; [reflexivity|].
  unfold format_08b. rewrite length_app, repeat_length.
  assert (length (bin_digits p) <= 8) by (apply bin_digits_length; lia). lia.
Qed.

Lemma concat_format_08b_length (binarios : list N) :
  Forall (fun byte => (byte < 256)%N) binarios ->
  length (concat (map format_08b binarios)) = 8 * length binarios.
Proof.
  induction 1 as [|byte binarios Hbyte _ IH]; [reflexivity|].
  simpl concat. rewrite length_app, IH, format_08b_length by assumption.
  simpl length. lia.
Qed.

Lemma concat_format_08b_length_ge (binarios : list N) :
  8 * length binarios <= length (concat (map format_08b binarios)).
Proof.
  induction binarios as [|byte binarios IH]; [simpl; lia|].
  simpl concat. rewrite length_app.
  pose proof (format_08b_length_ge byte). simpl length. lia.
Qed.

(** The padding brings the length to the next multiple of seven. *)
Lemma paddinf_of_spec (len : nat) :
  (len mod 7 = 0 -> paddinf_of len = 0)
  /\ (len mod 7 <> 0 -> paddinf_of len = 7 - len mod 7)
  /\ paddinf_of len < 7
  /\ (len + paddinf_of len) mod 7 = 0.
Proof.
  unfold paddinf_of. destruct (len mod 7 =? 0) eqn:E; cbn [negb].
  - apply Nat.eqb_eq in E. rewrite Nat.add_0_r. repeat split; lia.
  - apply Nat.eqb_neq in E. repeat split; lia.
Qed.

Lemma cadena_bits_of_bits (binarios : list N) :
  Forall is_bit (cadena_bits_of binarios).
Proof.
  unfold cadena_bits_of. apply Forall_app. split.
  - apply Forall_concat, Forall_map, Forall_forall. intros b _.
    apply format_08b_bits.
  - apply Forall_forall. intros c Hc. apply repeat_spec in Hc. now left.
Qed.

Lemma cadena_bits_of_length_ge (binarios : list N) :
  length binarios <= length (cadena_bits_of binarios).
Proof.
  unfold cadena_bits_of. rewrite length_app.
  pose proof (concat_format_08b_length_ge binarios). lia.
Qed.

Lemma int2_loop_bits (s : str) :
  forall acc : N,
    Forall is_bit s ->
    exists v, int2_loop s acc = Ok v
              /\ (v < (acc + 1) * 2 ^ N.of_nat (length s))%N.
Proof.
  induction s as [|c s IH]; intros acc Hbits.
  - exists acc. split; [reflexivity | simpl; lia].
  - inversion Hbits as [|? ? Hc Hs]; subst.
    cbn [length]. rewrite Nat2N.inj_succ, N.pow_succ_r'.
    destruct Hc as [-> | ->]; cbn [int2_loop Ascii.eqb Bool.eqb].
    + destruct (IH (2 * acc)%N Hs) as [v [Hv Hlt]]. exists v. split; [exact Hv | nia].
    + destruct (IH (2 * acc + 1)%N Hs) as [v [Hv Hlt]]. exists v. split; [exact Hv | nia].
Qed.

(** A group of seven binary digits at most is one character. *)
Lemma group_symbol (s : str) :
  Forall is_bit s -> s <> [] -> length s <= 7 ->
  exists v, (n <- int2 s ;; chr n) = Ok v /\ (v < 128)%N.
Proof.
  intros Hbits Hne Hlen.
  destruct (int2_loop_bits 0 Hbits) as [v [Hv Hlt]].
  assert (Hpow : (2 ^ N.of_nat (length s) <= 2 ^ 7)%N).
  { apply N.pow_le_mono_r; lia. }
  assert (Hv128 : (v < 128)%N) by (change (2 ^ 7)%N with 128%N in Hpow; lia).
  exists v. split; [|assumption].
  unfold int2. destruct s; [congruence|]. rewrite Hv. unfold bind, chr.
  destruct (v <? 1114112)%N eqn:E; [reflexivity|].
  apply N.ltb_ge in E. lia.
Qed.

Lemma Forall_slice {X : Type} (P : X -> Prop) (s : list X) (i j : nat) :
  Forall P s -> Forall P (slice s i j).
Proof.
  intros H. unfold slice.
  rewrite <- (firstn_skipn i s) in H. apply Forall_app in H as [_ H].
  rewrite <- (firstn_skipn (j - i) (skipn i s)) in H.
  now apply Forall_app in H as [H _].
Qed.

Lemma slice_length {X : Type} (s : list X) (i : nat) :
  length (slice s i (i + 7)) = Nat.min 7 (length s - i).
Proof.
  unfold slice. rewrite length_firstn, length_skipn.
  now replace (i + 7 - i) with 7 by lia.
Qed.

Lemma range_from_lt (fuel start stop step i : nat) :
  In i (range_from fuel start stop step) -> i < stop.
Proof.
  revert start. induction fuel as [|fuel IH]; intros start; simpl; [contradiction|].
  destruct (start <? stop) eqn:E; [|contradiction].
  apply Nat.ltb_lt in E. intros [<-|H]; [assumption | eauto].
Qed.

Lemma range_from_length (fuel start stop : nat) :
  stop - start <= fuel ->
  length (range_from fuel start stop 7) = (stop - start + 6) / 7.
Proof.
  revert start. induction fuel as [|fuel IH]; intros start Hfuel;
    cbn [range_from].
  - replace (stop - start) with 0 by lia. reflexivity.
  - destruct (start <? stop) eqn:E.
    + apply Nat.ltb_lt in E. cbn [length]. rewrite IH by lia. lia.
    + apply Nat.ltb_ge in E. replace (stop - start) with 0 by lia. reflexivity.
Qed.

Lemma sequence_map_Ok {X Y : Type} (f : X -> result Y) (l : list X) :
  (forall x, In x l -> exists y, f x = Ok y) ->
  exists ys, sequence (map f l) = Ok ys /\ length ys = length l.
Proof.
  induction l as [|x l IH]; intros H.
  - exists []. split; reflexivity.
  - destruct (H x (or_introl eq_refl)) as [y Hy].
    destruct IH as [ys [Hys Hlen]]; [intros x' Hx'; apply H; now right|].
    exists (y :: ys). simpl. rewrite Hy, Hys. simpl. now rewrite Hlen.
Qed.

(** The characters that [compress_image] encodes: one per seven {e bytes}
    of the image, since the groups start at the indices
    [range(0, len(binarios), 7)]. *)
Lemma image_symbols_length (binarios : list N) :
  exists symbols,
    image_symbols binarios = Ok symbols
    /\ length symbols = (length binarios + 6) / 7.
Proof.
  unfold image_symbols.
  destruct (@sequence_map_Ok nat N
              (fun i => n <- int2 (slice (cadena_bits_of binarios) i (i + 7)) ;; chr n)
              (range 0 (length binarios) 7)) as [symbols [Hseq Hlen]].
  - intros i Hi. apply range_from_lt in Hi.
    pose proof (cadena_bits_of_length_ge binarios) as Hge.
    pose proof (slice_length (cadena_bits_of binarios) i) as Hslice.
    destruct (@group_symbol (slice (cadena_bits_of binarios) i (i + 7)))
      as [v [Hv _]].
    + apply Forall_slice, cadena_bits_of_bits.
    + intros Hnil. rewrite Hnil in Hslice. cbn [length] in Hslice. lia.
    + lia.
    + now exists v.
  - exists symbols. split; [assumption|].
    rewrite Hlen. unfold range. rewrite range_from_length by lia.
    now rewrite Nat.sub_0_r.
Qed.

(** The padding recorded in the container is the one that brings the bit
    length of the bytes to the next multiple of seven. *)
Lemma compress_image_padding (width height channels : nat)
    (binarios : list N) (container : image_container) :
  Forall (fun byte => (byte < 256)%N) binarios ->
  compress_image width height channels binarios = Ok container ->
  padding container = paddinf_of (8 * length binarios).
Proof.
  intros Hbytes. unfold compress_image.
  rewrite (concat_format_08b_length Hbytes).
  destruct (image_symbols binarios) as [symbols|e]; [|discriminate].
  cbn [bind].
  destruct (adaptive_huffman_encoding N.eq_dec symbols) as [[encoded table]|e];
    [|discriminate].
  cbn [bind].
  destruct (sequence (map int_and_1 encoded)) as [bits|e]; [|discriminate].
  cbn [bind]. intros H. now injection H as <-.
Qed.

(** [decompress_image] decodes the stored bits without their last
    [padding] ones, and removes nothing from what it has decoded. *)
Lemma decompress_image_order (fuel : nat) (c : image_container) :
  decompress_image fuel c
  = match decode fuel (firstn (length (bits c) - padding c) (to01 (bits c)))
            (tree_code_table c) with
    | Some (Ok decoded_text) => Some (encode_utf8 decoded_text)
    | Some (Raise e) => Some (Raise e)
    | None => None
    end.
Proof.
  unfold decompress_image, drop_last, to01. rewrite length_map.
  destruct (0 <? padding c) eqn:E; [reflexivity|].
  apply Nat.ltb_ge in E. replace (padding c) with 0 by lia.
  rewrite Nat.sub_0_r, <- (length_map (fun b : bool => if b then "1"%char else "0"%char)).
  now rewrite firstn_all.
Qed.

(** On every image that is not empty, fewer characters are encoded than
    the padded bit string has groups of seven bits. *)
Lemma image_symbols_fewer (binarios : list N) :
  binarios <> [] ->
  exists symbols,
    image_symbols binarios = Ok symbols
    /\ length symbols < length (cadena_bits_of binarios) / 7.
Proof.
  intros Hne. destruct (image_symbols_length binarios) as [symbols [Heq Hlen]].
  exists symbols. split; [assumption|]. rewrite Hlen.
  assert (Hn : 0 < length binarios) by (destruct binarios; simpl; [congruence | lia]).
  unfold cadena_bits_of. rewrite length_app, repeat_length.
  pose proof (concat_format_08b_length_ge binarios) as Hge.
  destruct (paddinf_of_spec (length (concat (map format_08b binarios))))
    as [_ [_ [_ Hmod]]].
  lia.
Qed.

(** C7: on eight bytes, whose 64 bits are padded to 70, that is ten groups
    of seven bits, [compress_image] hands two characters to the encoder:
    the groups that start at the indices [0] and [7], the members of
    [range(0, 8, 7)].  The other eight groups are not encoded. *)
Theorem image_symbols_eight_bytes :
  let binarios := [0; 4; 0; 0; 0; 0; 0; 0]%N in
  image_symbols binarios = Ok [0; 1]%N
  /\ length (cadena_bits_of binarios) = 70
  /\ (8 * length binarios + paddinf_of (8 * length binarios)) / 7 = 10.
Proof. repeat split. Qed.

(** C8: the container of the same eight bytes records a padding of
    [7 - 64 mod 7 = 6] bits, but [decompress_image] removes these six bits
    from the encoded bits, before decoding: of the two encoded bits nothing
    is left and the decoded text is empty, whereas decoding the stored bits
    gives back the two characters that were encoded. *)
Theorem image_padding_eight_bytes :
  let binarios := [0; 4; 0; 0; 0; 0; 0; 0]%N in
  let container :=
    {| tree_code_table := [(Some 0%N, ["0"%char]); (Some 1%N, ["1"%char])];
       bits := [false; true];
       width := 2; height := 1; channels := 4;
       padding := 6 |} in
  compress_image 2 1 4 binarios = Ok container
  /\ padding container = 7 - (8 * length binarios) mod 7
  /\ (forall fuel, decompress_image fuel container = Some (Ok []))
  /\ decode 2 (to01 (bits container)) (tree_code_table container)
     = Some (Ok [0; 1]%N).
Proof.
  repeat split. intros fuel. unfold decompress_image. simpl.
  now destruct fuel.
Qed.

(** * Further properties of the code *)

(** ** Shape and weights of the built tree *)

Section TreeShape.
Context {A : Type} (A_eq_dec : forall x y : A, {x = y} + {x <> y}).

Lemma positional_build_counted (count : A -> nat)
    (nodes : list (@Node A)) (n : Node) :
  positional_build nodes n -> Forall (counted_tree count) nodes ->
  counted_tree count n.
Proof.
  induction 1 as [n | l r rest n _ IH]; intros Hall.
  - now inversion Hall.
  - inversion Hall as [|? ? Hl Hall']; subst.
    inversion Hall' as [|? ? Hr Hrest]; subst.
    apply IH. apply Forall_app. split; [assumption|].
    constructor; [now constructor | constructor].
Qed.

Lemma initial_leaves_counted (symbols : list A) :
  Forall (counted_tree (count_occ A_eq_dec symbols))
         (initial_leaves A_eq_dec symbols).
Proof.
  unfold initial_leaves. apply Forall_map, Forall_forall. intros x _.
  apply counted_leaf.
Qed.

Lemma counted_tree_weight (count : A -> nat) (n : @Node A) :
  counted_tree count n ->
  weight n = list_sum (map (key_count count) (leaf_symbols n)).
Proof.
  induction 1 as [s | l r _ IHl _ IHr].
  - simpl. lia.
  - rewrite leaf_symbols_merge, map_app, list_sum_app, <- IHl, <- IHr.
    reflexivity.
Qed.

Lemma list_sum_cons (a : nat) (l : list nat) :
  list_sum (a :: l) = a + list_sum l.
Proof. reflexivity. Qed.

Lemma list_sum_remove (f : A -> nat) (l : list A) (x : A) :
  NoDup l ->
  list_sum (map f l)
  = (if in_dec A_eq_dec x l then f x else 0)
    + list_sum (map f (remove A_eq_dec x l)).
Proof.
  induction 1 as [|a l Hnotin Hnd IH]; [reflexivity|].
  cbn [map remove]. rewrite list_sum_cons. destruct (A_eq_dec x a) as [->|Hne].
  - rewrite (notin_remove A_eq_dec l a Hnotin).
    destruct (in_dec A_eq_dec a (a :: l)) as [_|Hout]; [lia|].
    destruct Hout. now left.
  - cbn [map]. rewrite list_sum_cons, IH.
    destruct (in_dec A_eq_dec x l) as [Hin|Hout];
      destruct (in_dec A_eq_dec x (a :: l)) as [Hin'|Hout']; try lia.
    + destruct Hout'. now right.
    + destruct Hin' as [Heq|Hin']; [congruence | contradiction].
Qed.

(** The counts of the distinct symbols add up to the length of the text. *)
Lemma count_occ_sum (symbols : list A) :
  list_sum (map (count_occ A_eq_dec symbols)
                (first_occurrences A_eq_dec symbols))
  = length symbols.
Proof.
  induction symbols as [|x l IH]; [reflexivity|].
  cbn [first_occurrences map length]. rewrite list_sum_cons.
  rewrite (count_occ_cons_eq A_eq_dec l eq_refl).
  rewrite (list_sum_remove (count_occ A_eq_dec l) x
             (first_occurrences_NoDup A_eq_dec l)) in IH.
  assert (Hrest : map (count_occ A_eq_dec (x :: l))
                      (remove A_eq_dec x (first_occurrences A_eq_dec l))
                  = map (count_occ A_eq_dec l)
                      (remove A_eq_dec x (first_occurrences A_eq_dec l))).
  { apply map_ext_in. intros y Hy. apply in_remove in Hy as [_ Hne].
    apply count_occ_cons_neq. congruence. }
  rewrite Hrest.
  destruct (in_dec A_eq_dec x (first_occurrences A_eq_dec l)) as [Hin|Hout].
  - lia.
  - assert (Hzero : count_occ A_eq_dec l x = 0).
    { apply count_occ_not_In. intros Hx. apply Hout.
      now apply first_occurrences_In. }
    lia.
Qed.

(** X1: the tree that [build_tree] leaves at the root of the object, for a
    text that is not empty, is a full binary tree: its leaves carry the
    distinct symbols of the text, each once and with its number of
    occurrences as weight; its internal nodes carry no symbol, have two
    children and weigh the sum of their children.  The root weighs the
    length of the text. *)
Theorem build_tree_shape (symbols : list A) (self : @HuffmanTree A) :
  symbols <> [] ->
  exists n,
    build_tree A_eq_dec symbols self
    = (Ok tt, {| root := Some n; code_table := code_table self |})
    /\ counted_tree (count_occ A_eq_dec symbols) n
    /\ Permutation (leaf_symbols n)
         (map Some (first_occurrences A_eq_dec symbols))
    /\ weight n = length symbols.
Proof.
  intros Hne.
  destruct (@build_tree_root _ A_eq_dec symbols self Hne) as [n [Hbuild Hpos]].
  assert (Hshape : counted_tree (count_occ A_eq_dec symbols) n).
  { apply (positional_build_counted Hpos), initial_leaves_counted. }
  pose proof (@built_leaves _ A_eq_dec symbols n Hpos) as Hperm.
  exists n. repeat split; try assumption.
  rewrite (counted_tree_weight Hshape).
  rewrite (Permutation_list_sum
             (Permutation_map (key_count (count_occ A_eq_dec symbols)) Hperm)).
  rewrite map_map. simpl. apply count_occ_sum.
Qed.

End TreeShape.

Lemma build_tree_shape_witness :
  exists n,
    build_tree ascii_dec ["a"; "b"; "a"; "c"]%char HuffmanTree_init
    = (Ok tt, {| root := Some n; code_table := [] |})
    /\ counted_tree (count_occ ascii_dec ["a"; "b"; "a"; "c"]%char) n
    /\ Permutation (leaf_symbols n)
         (map Some (first_occurrences ascii_dec ["a"; "b"; "a"; "c"]%char))
    /\ weight n = length ["a"; "b"; "a"; "c"]%char.
Proof.
  apply (@build_tree_shape ascii ascii_dec ["a"; "b"; "a"; "c"]%char
           HuffmanTree_init).
  discriminate.
Defined.

(** ** Lengths of the codewords *)

Section CodewordLengths.
Context {A : Type} (A_eq_dec : forall x y : A, {x = y} + {x <> y}).

Lemma leaf_depths_merge (l r : @Node A) (w : nat) :
  leaf_depths (mkNode None w (Some l) (Some r))
  = map S (leaf_depths l) ++ map S (leaf_depths r).
Proof.
  unfold leaf_depths. simpl. rewrite map_app, !map_map.
  f_equal; apply map_ext; now intros [k p].
Qed.

Lemma depths_ordered_snoc (nodes : list (@Node A)) (n : Node) :
  depths_ordered nodes ->
  (forall d d', In d (flat_map leaf_depths nodes) ->
                In d' (leaf_depths n) -> d <= d') ->
  depths_ordered (nodes ++ [n]).
Proof.
  induction nodes as [|a nodes IH]; simpl; intros Hord Hlast.
  - split; [intros d d' _ [] | exact I].
  - destruct Hord as [Ha Hord]. split.
    + intros d d' Hd Hd'. rewrite flat_map_app in Hd'. simpl in Hd'.
      rewrite app_nil_r in Hd'. apply in_app_iff in Hd' as [Hd'|Hd'].
      * now apply Ha.
      * apply Hlast; [apply in_app_iff; now left | assumption].
    + apply IH; [assumption|]. intros d d' Hd Hd'.
      apply Hlast; [apply in_app_iff; now right | assumption].
Qed.

(** A turn of the merging loop keeps the invariant of the work list. *)
Lemma queue_balanced_merge (l r : @Node A) (rest : list Node) (w : nat) :
  queue_balanced (l :: r :: rest) ->
  queue_balanced (rest ++ [mkNode None w (Some l) (Some r)]).
Proof.
  intros [[Hl [Hr Hrest]] Hclose]. simpl in Hl, Hclose.
  assert (Hin_l : forall d, In d (leaf_depths l) ->
            In d (leaf_depths l ++ leaf_depths r ++ flat_map leaf_depths rest)).
  { intros d Hd. apply in_app_iff. now left. }
  assert (Hin_r : forall d, In d (leaf_depths r) ->
            In d (leaf_depths l ++ leaf_depths r ++ flat_map leaf_depths rest)).
  { intros d Hd. apply in_app_iff. right. apply in_app_iff. now left. }
  assert (Hin_rest : forall d, In d (flat_map leaf_depths rest) ->
            In d (leaf_depths l ++ leaf_depths r ++ flat_map leaf_depths rest)).
  { intros d Hd. apply in_app_iff. right. apply in_app_iff. now right. }
  assert (Hnew : forall d, In d (leaf_depths (mkNode None w (Some l) (Some r))) ->
            exists d0, d = S d0 /\ (In d0 (leaf_depths l) \/ In d0 (leaf_depths r))).
  { intros d Hd. rewrite leaf_depths_merge in Hd.
    apply in_app_iff in Hd as [Hd|Hd]; apply in_map_iff in Hd as [d0 [<- Hd0]];
      exists d0; auto. }
  assert (Hbelow : forall d0 d, In d0 (leaf_depths l) \/ In d0 (leaf_depths r) ->
            In d (flat_map leaf_depths rest) -> d0 <= d).
  { intros d0 d [Hd0|Hd0] Hd.
    - apply Hl; [assumption | apply in_app_iff; now right].
    - now apply Hr. }
  assert (Hany : forall d0, In d0 (leaf_depths l) \/ In d0 (leaf_depths r) ->
            In d0 (leaf_depths l ++ leaf_depths r ++ flat_map leaf_depths rest)).
  { intros d0 [Hd0|Hd0]; auto. }
  split.
  - apply depths_ordered_snoc; [assumption|].
    intros d d' Hd Hd'. destruct (Hnew d' Hd') as [d0 [-> Hd0]].
    pose proof (Hclose d0 d (Hany d0 Hd0) (Hin_rest d Hd)). lia.
  - intros d d' Hd Hd'. rewrite flat_map_app in Hd, Hd'. simpl in Hd, Hd'.
    rewrite app_nil_r in Hd, Hd'.
    apply in_app_iff in Hd as [Hd|Hd]; apply in_app_iff in Hd' as [Hd'|Hd'].
    + apply Hclose; auto.
    + destruct (Hnew d' Hd') as [d0' [-> Hd0']].
      pose proof (Hbelow d0' d Hd0' Hd). lia.
    + destruct (Hnew d Hd) as [d0 [-> Hd0]].
      pose proof (Hclose d0 d' (Hany d0 Hd0) (Hin_rest d' Hd')). lia.
    + destruct (Hnew d Hd) as [d0 [-> Hd0]].
      destruct (Hnew d' Hd') as [d0' [-> Hd0']].
      pose proof (Hclose d0 d0' (Hany d0 Hd0) (Hany d0' Hd0')). lia.
Qed.

Lemma positional_build_balanced (nodes : list (@Node A)) (n : Node) :
  positional_build nodes n -> queue_balanced nodes ->
  forall d d', In d (leaf_depths n) -> In d' (leaf_depths n) -> d' <= d + 1.
Proof.
  induction 1 as [n | l r rest n _ IH]; intros Hbal.
  - destruct Hbal as [_ Hclose]. simpl in Hclose. rewrite app_nil_r in Hclose.
    exact Hclose.
  - apply IH. now apply queue_balanced_merge.
Qed.

Lemma leaves_balanced (nodes : list (@Node A)) :
  Forall (fun n => leaf_depths n = [0]) nodes -> queue_balanced nodes.
Proof.
  intros Hall.
  assert (Hzero : forall q, Forall (fun n : @Node A => leaf_depths n = [0]) q ->
            forall d, In d (flat_map leaf_depths q) -> d = 0).
  { intros q Hq. induction Hq as [|n q Hn _ IHq]; simpl; [contradiction|].
    intros d Hd. apply in_app_iff in Hd as [Hd|Hd]; [|auto].
    rewrite Hn in Hd. destruct Hd as [<-|[]]. reflexivity. }
  split.
  - induction Hall as [|n q Hn Hq IHq]; simpl; [exact I|].
    split; [|assumption]. intros d d' Hd Hd'. rewrite Hn in Hd.
    destruct Hd as [<-|[]]. lia.
  - intros d d' Hd Hd'. rewrite (Hzero _ Hall d Hd), (Hzero _ Hall d' Hd'). lia.
Qed.

Lemma initial_leaves_balanced (symbols : list A) :
  queue_balanced (initial_leaves A_eq_dec symbols).
Proof.
  apply leaves_balanced. unfold initial_leaves.
  apply Forall_map, Forall_forall. now intros x _.
Qed.

(** X2: the lengths of the codewords that [adaptive_huffman_encoding]
    assigns differ by one bit at most, whatever the frequencies of the
    symbols: merging by position builds a balanced tree. *)
Theorem codeword_lengths_balanced (symbols : list A) :
  symbols <> [] ->
  exists encoded_text table,
    adaptive_huffman_encoding A_eq_dec symbols = Ok (encoded_text, table)
    /\ forall k1 c1 k2 c2,
         In (k1, c1) table -> In (k2, c2) table ->
         length c2 <= length c1 + 1.
Proof.
  intros Hne.
  destruct (@adaptive_huffman_encoding_built _ A_eq_dec symbols Hne)
    as [n [Hpos Henc]].
  eexists _, _. split; [exact Henc|].
  intros k1 c1 k2 c2 H1 H2.
  apply (@positional_build_balanced _ n Hpos (initial_leaves_balanced symbols)).
  - apply in_map_iff. exists (k1, c1). split; [reflexivity | assumption].
  - apply in_map_iff. exists (k2, c2). split; [reflexivity | assumption].
Qed.

End CodewordLengths.

Lemma codeword_lengths_balanced_witness :
  exists encoded_text table,
    adaptive_huffman_encoding ascii_dec ["a"; "a"; "a"; "a"; "b"; "c"]%char
    = Ok (encoded_text, table)
    /\ forall k1 c1 k2 c2,
         In (k1, c1) table -> In (k2, c2) table ->
         length c2 <= length c1 + 1.
Proof.
  apply (@codeword_lengths_balanced ascii ascii_dec
           ["a"; "a"; "a"; "a"; "b"; "c"]%char).
  discriminate.
Defined.

Section KraftSum.
Context {A : Type} (A_eq_dec : forall x y : A, {x = y} + {x <> y}).

(** In a full binary tree the leaves fill the levels: weighting a leaf at
    depth [d] by [2 ^ (D - d)] gives [2 ^ D] in all. *)
Lemma counted_tree_kraft (count : A -> nat) (n : @Node A) :
  counted_tree count n ->
  forall D, (forall d, In d (leaf_depths n) -> d <= D) ->
    list_sum (map (fun d => 2 ^ (D - d)) (leaf_depths n)) = 2 ^ D.
Proof.
  induction 1 as [s | l r _ IHl _ IHr]; intros D HD.
  - change (leaf_depths (mkNode (Some s) (count s) None None)) with [0].
    cbn [map]. rewrite list_sum_cons, Nat.sub_0_r. simpl. lia.
  - rewrite leaf_depths_merge in HD |- *.
    destruct D as [|D].
    + destruct (leaf_depths l) as [|d ds] eqn:E.
      * specialize (IHl 0). simpl in IHl.
        assert (0 = 1) by (apply IHl; intros ? []). discriminate.
      * specialize (HD (S d)). simpl in HD. lia.
    + rewrite map_app, list_sum_app, !map_map. cbn [Nat.sub].
      rewrite IHl, IHr.
      * rewrite Nat.pow_succ_r'. lia.
      * intros d Hd. specialize (HD (S d)).
        assert (S d <= S D); [|lia].
        apply HD, in_app_iff. right. now apply in_map.
      * intros d Hd. specialize (HD (S d)).
        assert (S d <= S D); [|lia].
        apply HD, in_app_iff. left. now apply in_map.
Qed.

Lemma list_sum_lower (f : nat -> nat) (l : list nat) :
  (forall d, In d l -> 1 <= f d) -> length l <= list_sum (map f l).
Proof.
  induction l as [|a l IH]; intros H; [simpl; lia|].
  cbn [map length]. rewrite list_sum_cons.
  pose proof (H a (or_introl eq_refl)).
  assert (length l <= list_sum (map f l)) by (apply IH; intros; apply H; now right).
  lia.
Qed.

Lemma list_sum_upper (f : nat -> nat) (l : list nat) (x : nat) :
  In x l -> f x <= 2 -> (forall d, In d l -> f d <= 4) ->
  list_sum (map f l) + 2 <= 4 * length l.
Proof.
  intros Hx Hfx Hall.
  assert (Hweak : forall q, (forall d, In d q -> f d <= 4) ->
            list_sum (map f q) <= 4 * length q).
  { induction q as [|a q IHq]; intros Hq; [simpl; lia|].
    cbn [map length]. rewrite list_sum_cons.
    pose proof (Hq a (or_introl eq_refl)).
    assert (list_sum (map f q) <= 4 * length q)
      by (apply IHq; intros; apply Hq; now right).
    lia. }
  induction l as [|a l IH]; [contradiction|].
  cbn [map length]. rewrite list_sum_cons.
  destruct Hx as [->|Hx].
  - assert (list_sum (map f l) <= 4 * length l)
      by (apply Hweak; intros; apply Hall; now right).
    lia.
  - pose proof (Hall a (or_introl eq_refl)).
    assert (list_sum (map f l) + 2 <= 4 * length l)
      by (apply IH; [assumption | intros; apply Hall; now right]).
    lia.
Qed.

(** X3: with [n] distinct symbols in the text, every codeword has a
    length [len] with [n <= 2 ^ (len + 1)] and [2 ^ len < 2 * n]: it is
    within one bit of the logarithm of the size of the alphabet, as in a
    code of fixed length.  The table has one entry per distinct symbol. *)
Theorem codeword_length_logarithmic (symbols : list A) :
  symbols <> [] ->
  exists encoded_text table,
    adaptive_huffman_encoding A_eq_dec symbols = Ok (encoded_text, table)
    /\ length table = length (first_occurrences A_eq_dec symbols)
    /\ forall k c,
         In (k, c) table ->
         length table <= 2 ^ (length c + 1)
         /\ 2 ^ length c < 2 * length table.
Proof.
  intros Hne.
  destruct (@adaptive_huffman_encoding_built _ A_eq_dec symbols Hne)
    as [n [Hpos Henc]].
  eexists _, _. split; [exact Henc|].
  assert (Hlen : length (leaf_paths n) = length (leaf_depths n)).
  { unfold leaf_depths. now rewrite length_map. }
  split.
  { pose proof (Permutation_length (@built_leaves _ A_eq_dec symbols n Hpos)) as Hp.
    unfold leaf_symbols in Hp. now rewrite !length_map in Hp. }
  intros k c Hin.
  assert (Hc : In (length c) (leaf_depths n)).
  { apply in_map_iff. exists (k, c). split; [reflexivity | assumption]. }
  pose proof (@positional_build_balanced _ _ n Hpos
                (initial_leaves_balanced A_eq_dec symbols)) as Hbal.
  assert (Hshape : counted_tree (count_occ A_eq_dec symbols) n).
  { apply (positional_build_counted Hpos), initial_leaves_counted. }
  assert (Hkraft : list_sum (map (fun d => 2 ^ (length c + 1 - d)) (leaf_depths n))
                   = 2 ^ (length c + 1)).
  { apply (counted_tree_kraft Hshape).
    intros d Hd. apply (Hbal (length c) d Hc Hd). }
  rewrite Hlen. split.
  - rewrite <- Hkraft. apply list_sum_lower. intros d _.
    pose proof (Nat.pow_nonzero 2 (length c + 1 - d)). lia.
  - assert (Hup : list_sum (map (fun d => 2 ^ (length c + 1 - d)) (leaf_depths n)) + 2
                  <= 4 * length (leaf_depths n)).
    { apply list_sum_upper with (x := length c).
      - assumption.
      - replace (length c + 1 - length c) with 1 by lia. simpl. lia.
      - intros d Hd. pose proof (Hbal d (length c) Hd Hc).
        change 4 with (2 ^ 2). apply Nat.pow_le_mono_r; lia. }
    rewrite Hkraft in Hup.
    rewrite Nat.add_1_r, Nat.pow_succ_r' in Hup. lia.
Qed.

End KraftSum.

Lemma codeword_length_logarithmic_witness :
  exists encoded_text table,
    adaptive_huffman_encoding ascii_dec ["a"; "b"; "c"; "a"; "d"; "e"]%char
    = Ok (encoded_text, table)
    /\ length table
       = length (first_occurrences ascii_dec ["a"; "b"; "c"; "a"; "d"; "e"]%char)
    /\ forall k c,
         In (k, c) table ->
         length table <= 2 ^ (length c + 1)
         /\ 2 ^ length c < 2 * length table.
Proof.
  apply (@codeword_length_logarithmic ascii ascii_dec
           ["a"; "b"; "c"; "a"; "d"; "e"]%char).
  discriminate.
Defined.

(** ** The table of an arbitrary tree *)

Section AnyTree.
Context {A : Type} (A_eq_dec : forall x y : A, {x = y} + {x <> y}).

Local Abbreviation key_dec := (@key_eq_dec A A_eq_dec).

Lemma mem_keys {V : Type} (d : Dict.t (option A) V) (k : option A) :
  Dict.mem key_dec d k = true <-> In k (Dict.keys d).
Proof.
  unfold Dict.mem. induction d as [|[k' v'] d IH]; simpl.
  - split; [discriminate | contradiction].
  - destruct (key_dec k k') as [->|Hne].
    + split; [now left | reflexivity].
    + rewrite IH. split; [now right | intros [H|H]; [congruence | assumption]].
Qed.

Lemma set_keys_In {V : Type} (d : Dict.t (option A) V) (k k' : option A) (v : V) :
  In k' (Dict.keys (Dict.set key_dec d k v)) <-> In k' (Dict.keys d) \/ k' = k.
Proof.
  rewrite keys_set. destruct (Dict.mem key_dec d k) eqn:E.
  - apply mem_keys in E. split; [now left | intros [H | ->]; assumption].
  - rewrite in_app_iff. simpl. split.
    + intros [H|[H|[]]]; auto.
    + intros [H|H]; auto.
Qed.

Lemma set_keys_NoDup {V : Type} (d : Dict.t (option A) V) (k : option A) (v : V) :
  NoDup (Dict.keys d) -> NoDup (Dict.keys (Dict.set key_dec d k v)).
Proof.
  intros Hnd. rewrite keys_set. destruct (Dict.mem key_dec d k) eqn:E.
  - assumption.
  - apply NoDup_app; [assumption | repeat constructor; intros [] |].
    intros x Hx [<-|[]]. apply mem_keys in Hx. congruence.
Qed.

Lemma set_In {V : Type} (d : Dict.t (option A) V) (k k' : option A) (v v' : V) :
  In (k', v') (Dict.set key_dec d k v) -> In (k', v') d \/ (k' = k /\ v' = v).
Proof.
  induction d as [|[k0 v0] d IH]; simpl.
  - intros [H|[]]. injection H as <- <-. now right.
  - destruct (key_dec k k0) as [->|Hne]; simpl.
    + intros [H|H]; [injection H as <- <-; now right | left; now right].
    + intros [H|H]; [left; now left|].
      destruct (IH H) as [H'|H']; [left; now right | now right].
Qed.

(** Assigning the entries of a list, one after the other *)
Lemma fold_set_entries {V X : Type} (key : X -> option A) (val : X -> V)
    (l : list X) :
  forall d : Dict.t (option A) V,
    NoDup (Dict.keys d) ->
    let d' := fold_left (fun t x => Dict.set key_dec t (key x) (val x)) l d in
    NoDup (Dict.keys d')
    /\ (forall k, In k (Dict.keys d') <-> In k (Dict.keys d) \/ In k (map key l))
    /\ (forall k v, In (k, v) d' ->
          In (k, v) d \/ exists x, In x l /\ key x = k /\ val x = v).
Proof.
  induction l as [|x l IH]; intros d Hnd; simpl.
  - repeat split; auto. intros [H|[]]. assumption.
  - destruct (IH (Dict.set key_dec d (key x) (val x)) (set_keys_NoDup _ _ _ Hnd))
      as [Hnd' [Hkeys Hentries]].
    repeat split.
    + assumption.
    + intros H. apply Hkeys in H as [H|H]; [|auto].
      apply set_keys_In in H as [H| ->]; auto.
    + intros [H|[<-|H]]; apply Hkeys.
      * left. apply set_keys_In. now left.
      * left. apply set_keys_In. now right.
      * now right.
    + intros k v H. destruct (Hentries k v H) as [H'|[y [Hy [Hk Hv]]]].
      * apply set_In in H' as [H'|[-> ->]]; [now left|].
        right. exists x. auto.
      * right. exists y. auto.
Qed.

(** X4: on any tree, whatever the table held before,
    [generate_code_table] leaves a table with exactly one entry for each
    symbol carried by a leaf, and every codeword of the table is the path
    from the root to a leaf that carries its symbol. *)
Theorem generate_code_table_entries (node : @Node A)
    (stale : Dict.t (option A) str) :
  exists table,
    generate_code_table A_eq_dec {| root := Some node; code_table := stale |}
    = (Ok tt, {| root := Some node; code_table := table |})
    /\ NoDup (Dict.keys table)
    /\ (forall k, In k (Dict.keys table) <-> In k (leaf_symbols node))
    /\ (forall k c, In (k, c) table -> In (k, c) (leaf_paths node)).
Proof.
  eexists. split; [reflexivity|]. simpl.
  rewrite generate_code_table_paths.
  destruct (@fold_set_entries str (option A * str) fst (fun kp => [] ++ snd kp)
              (leaf_paths node) [] (NoDup_nil _)) as [Hnd [Hkeys Hentries]].
  repeat split.
  - exact Hnd.
  - intros H. apply Hkeys in H as [[]|H]. exact H.
  - intros H. apply Hkeys. now right.
  - intros k c H. destruct (Hentries k c H) as [[]|[[k' p] [Hin [Hk Hv]]]].
    simpl in Hk, Hv. now subst.
Qed.

End AnyTree.

(** ** Encoding *)

Section Encoding.
Context {A : Type} (A_eq_dec : forall x y : A, {x = y} + {x <> y}).

Local Abbreviation key_dec := (@key_eq_dec A A_eq_dec).

Lemma encode_loop_all_or_nothing (table : Dict.t (option A) str)
    (symbols : list A) :
  forall encoded_symbols,
    encode_loop A_eq_dec table symbols encoded_symbols
    = if forallb (fun s => Dict.mem key_dec table (Some s)) symbols
      then Ok (encoded_symbols ++ flat_map (code_of A_eq_dec table) symbols)
      else Raise KeyError.
Proof.
  induction symbols as [|s symbols IH]; intros acc; simpl.
  - now rewrite app_nil_r.
  - unfold Dict.mem at 1, code_of at 1.
    destruct (Dict.get key_dec table (Some s)) as [c|]; [|reflexivity].
    simpl. rewrite IH.
    destruct (forallb _ symbols); [now rewrite <- app_assoc | reflexivity].
Qed.

(** X5: [encode] returns the concatenation of the codewords of the
    symbols, in order, when every symbol is a key of the table; as soon as
    one symbol is not a key it raises [KeyError] and returns no partial
    result.  It leaves the object as it was. *)
Theorem encode_all_or_nothing (symbols : list A) (self : @HuffmanTree A) :
  encode A_eq_dec symbols self
  = (if forallb (fun s => Dict.mem key_dec (code_table self) (Some s)) symbols
     then Ok (flat_map (code_of A_eq_dec (code_table self)) symbols)
     else Raise KeyError,
     self).
Proof. unfold encode. now rewrite encode_loop_all_or_nothing. Qed.

Lemma leaf_paths_bits (node : @Node A) :
  forall k c, In (k, c) (leaf_paths node) -> Forall is_bit c.
Proof.
  induction node as [s w l r IHl IHr] using Node_induction.
  assert (Hl : forall n k c, l = Some n ->
            In (k, c) (map (fun '(k, p) => (k, "0"%char :: p)) (leaf_paths n)) ->
            Forall is_bit c).
  { intros n k c Hn Hin. apply in_map_iff in Hin as [[k' p] [Heq Hin]].
    injection Heq as <- <-. constructor; [now left | now apply (IHl n Hn k')]. }
  assert (Hr : forall n k c, r = Some n ->
            In (k, c) (map (fun '(k, p) => (k, "1"%char :: p)) (leaf_paths n)) ->
            Forall is_bit c).
  { intros n k c Hn Hin. apply in_map_iff in Hin as [[k' p] [Heq Hin]].
    injection Heq as <- <-. constructor; [now right | now apply (IHr n Hn k')]. }
  intros k c. destruct l as [l'|], r as [r'|]; simpl; intros Hin.
  - apply in_app_iff in Hin as [Hin|Hin]; eauto.
  - rewrite app_nil_r in Hin. eauto.
  - eauto.
  - destruct Hin as [Hin|[]]. injection Hin as <- <-. constructor.
Qed.

Lemma code_of_entry (table : Dict.t (option A) str) (s : A) :
  code_of A_eq_dec table s = []
  \/ In (Some s, code_of A_eq_dec table s) table.
Proof.
  unfold code_of. destruct (Dict.get key_dec table (Some s)) as [c|] eqn:E.
  - right. now apply get_In in E.
  - now left.
Qed.

Lemma encoded_bits (node : @Node A) (symbols : list A) :
  Forall is_bit (flat_map (code_of A_eq_dec (leaf_paths node)) symbols).
Proof.
  induction symbols as [|s symbols IH]; simpl; [constructor|].
  apply Forall_app. split; [|assumption].
  destruct (code_of_entry (leaf_paths node) s) as [-> | Hin]; [constructor|].
  exact (leaf_paths_bits _ _ _ Hin).
Qed.

(** X6: on a text that is not empty [adaptive_huffman_encoding] raises
    nothing: every symbol of the text has its entry in the table, the keys
    of the table are the distinct symbols of the text, each once, and the
    encoded text is the concatenation of the codewords of the symbols, made
    of the digits [0] and [1] only. *)
Theorem adaptive_huffman_encoding_succeeds (text : list A) :
  text <> [] ->
  exists encoded_text table,
    adaptive_huffman_encoding A_eq_dec text = Ok (encoded_text, table)
    /\ NoDup (Dict.keys table)
    /\ (forall k, In k (Dict.keys table) <-> exists s, k = Some s /\ In s text)
    /\ encoded_text = flat_map (code_of A_eq_dec table) text
    /\ Forall is_bit encoded_text.
Proof.
  intros Hne.
  destruct (@adaptive_huffman_encoding_built _ A_eq_dec text Hne)
    as [n [Hpos Henc]].
  pose proof (@built_leaves _ A_eq_dec text n Hpos) as Hperm.
  eexists _, _. split; [exact Henc|]. repeat split.
  - apply (@built_leaves_NoDup _ A_eq_dec text n Hpos).
  - intros Hk. apply (Permutation_in _ Hperm) in Hk.
    apply in_map_iff in Hk as [s [<- Hs]]. exists s. split; [reflexivity|].
    exact (proj1 (first_occurrences_In A_eq_dec text s) Hs).
  - intros [s [-> Hs]]. apply (Permutation_in _ (Permutation_sym Hperm)).
    apply in_map. now apply first_occurrences_In.
  - apply encoded_bits.
Qed.

End Encoding.

Lemma adaptive_huffman_encoding_succeeds_witness :
  exists encoded_text table,
    adaptive_huffman_encoding ascii_dec ["a"; "b"; "b"]%char
    = Ok (encoded_text, table)
    /\ NoDup (Dict.keys table)
    /\ (forall k, In k (Dict.keys table)
                  <-> exists s, k = Some s /\ In s ["a"; "b"; "b"]%char)
    /\ encoded_text = flat_map (code_of ascii_dec table) ["a"; "b"; "b"]%char
    /\ Forall is_bit encoded_text.
Proof.
  apply (@adaptive_huffman_encoding_succeeds ascii ascii_dec ["a"; "b"; "b"]%char).
  discriminate.
Defined.

(** ** Decoding with an arbitrary table *)

Section AnyTable.
Context {A : Type} (A_eq_dec : forall x y : A, {x = y} + {x <> y}).

Local Abbreviation key_dec := (@key_eq_dec A A_eq_dec).

(** X7: with any table in which every key is a symbol, no codeword is
    empty and no codeword is a prefix of another, [decode] undoes [encode]:
    a text whose symbols are keys of the table is encoded, and [decode]
    returns it from the encoded message, with one turn of its loop per
    symbol at most. *)
Theorem codec_round_trip (table : Dict.t (option A) str) (symbols : list A)
    (r : option (@Node A)) :
  prefix_code table ->
  (forall s, In s symbols -> In (Some s) (Dict.keys table)) ->
  exists encoded_symbols,
    fst (encode A_eq_dec symbols {| root := r; code_table := table |})
    = Ok encoded_symbols
    /\ decode (length symbols) encoded_symbols table = Some (Ok symbols).
Proof.
  intros Hpc Hkeys. unfold encode. cbn [fst code_table].
  rewrite encode_loop_codes by assumption.
  eexists. split; [reflexivity|]. unfold decode. cbn [app].
  rewrite (@decode_while_codes _ A_eq_dec table Hpc); auto.
  intros s Hs. apply code_of_In. auto.
Qed.

(** What one pass over the entries has decoded, it has read from the front
    of the message, codeword by codeword. *)
Lemma decode_for_sound (table : Dict.t (option A) str) :
  NoDup (Dict.keys table) ->
  forall (items : Dict.t (option A) str) (d : list A) (m : str) d' m',
    incl items table ->
    decode_for items d m = Ok (d', m') ->
    exists done,
      d' = d ++ done
      /\ m = flat_map (code_of A_eq_dec table) done ++ m'
      /\ forall s, In s done -> In (Some s) (Dict.keys table).
Proof.
  intros Hnd. induction items as [|[k c] items IH]; intros d m d' m' Hincl Hfor.
  - simpl in Hfor. injection Hfor as <- <-. exists []. simpl.
    rewrite app_nil_r. repeat split. intros s [].
  - assert (Hincl' : incl items table) by (intros e He; apply Hincl; now right).
    simpl in Hfor. destruct (startswith m c) eqn:Hsw.
    + destruct k as [s|]; [|discriminate].
      apply startswith_is_prefix in Hsw as [t ->].
      rewrite skipn_length_app in Hfor.
      destruct (IH _ _ _ _ Hincl' Hfor) as [done [-> [-> Hdone]]].
      assert (Hin : In (Some s, c) table) by (apply Hincl; now left).
      assert (Hcode : code_of A_eq_dec table s = c).
      { unfold code_of. now rewrite (In_get key_dec table (Some s) c Hnd Hin). }
      exists (s :: done). repeat split.
      * now rewrite <- app_assoc.
      * cbn [flat_map]. now rewrite Hcode, <- app_assoc.
      * intros s' [<-|Hs']; [|auto].
        change (Some s) with (fst (Some s, c)). now apply in_map.
    + eauto.
Qed.

Lemma decode_while_sound (table : Dict.t (option A) str) :
  NoDup (Dict.keys table) ->
  forall fuel (d : list A) (m : str) text,
    decode_while fuel table d m = Some (Ok text) ->
    exists done,
      text = d ++ done
      /\ m = flat_map (code_of A_eq_dec table) done
      /\ forall s, In s done -> In (Some s) (Dict.keys table).
Proof.
  intros Hnd. induction fuel as [|fuel IH]; intros d m text Hdec.
  - destruct m; [|discriminate]. injection Hdec as <-.
    exists []. rewrite app_nil_r. repeat split. intros s [].
  - destruct m as [|a m].
    { rewrite decode_while_nil in Hdec. injection Hdec as <-.
      exists []. rewrite app_nil_r. repeat split. intros s []. }
    rewrite decode_while_turn in Hdec by discriminate.
    destruct (decode_for table d (a :: m)) as [[d' m']|e] eqn:Hfor;
      [|discriminate].
    destruct (@decode_for_sound table Hnd table d (a :: m) d' m'
                (incl_refl _) Hfor) as [done1 [-> [Hm Hdone1]]].
    destruct (IH _ _ _ Hdec) as [done2 [-> [-> Hdone2]]].
    exists (done1 ++ done2). repeat split.
    + now rewrite app_assoc.
    + now rewrite Hm, flat_map_app.
    + intros s Hs. apply in_app_iff in Hs as [Hs|Hs]; auto.
Qed.

(** X8: [decode] returns no garbled text: with any table (its keys are
    distinct, as those of a dictionary are), a text that [decode] returns
    for a message is a text that [encode] maps to that very message. *)
Theorem decode_returns_preimage (table : Dict.t (option A) str)
    (encoded_message : str) (text : list A) (r : option (@Node A)) :
  NoDup (Dict.keys table) ->
  decode_returns encoded_message table (Ok text) ->
  fst (encode A_eq_dec text {| root := r; code_table := table |})
  = Ok encoded_message.
Proof.
  intros Hnd [fuel Hfuel]. unfold decode in Hfuel.
  destruct (@decode_while_sound table Hnd fuel [] encoded_message text Hfuel)
    as [done [-> [-> Hdone]]].
  unfold encode. cbn [fst code_table app].
  now rewrite encode_loop_codes.
Qed.

Lemma decode_for_error (items : Dict.t (option A) str) :
  forall (d : list A) (m : str) e,
    decode_for items d m = Raise e ->
    e = TypeError /\ exists c, In (None, c) items.
Proof.
  induction items as [|[k c] items IH]; intros d m e Hfor; simpl in Hfor.
  - discriminate.
  - destruct (startswith m c).
    + destruct k as [s|].
      * destruct (IH _ _ _ Hfor) as [He [c' Hc']]. split; [assumption|].
        exists c'. now right.
      * injection Hfor as <-. split; [reflexivity|]. exists c. now left.
    + destruct (IH _ _ _ Hfor) as [He [c' Hc']]. split; [assumption|].
      exists c'. now right.
Qed.

(** X9: the only exception that [decode] raises is the [TypeError] of
    adding a key that is [None] to the decoded text: with a table whose
    keys are all characters, [decode] raises nothing, whatever the
    message. *)
Theorem decode_raises_only_on_none_key (table : Dict.t (option A) str)
    (encoded_message : str) (e : exn) :
  decode_returns encoded_message table (Raise e) ->
  e = TypeError /\ exists c, In (None, c) table.
Proof.
  intros [fuel Hfuel]. unfold decode in Hfuel.
  generalize dependent encoded_message. generalize (@nil A).
  induction fuel as [|fuel IH]; intros d m Hdec.
  - now destruct m.
  - destruct m as [|a m]; [now rewrite decode_while_nil in Hdec|].
    rewrite decode_while_turn in Hdec by discriminate.
    destruct (decode_for table d (a :: m)) as [[d' m']|e'] eqn:Hfor.
    + eauto.
    + injection Hdec as ->. exact (decode_for_error _ _ _ Hfor).
Qed.

End AnyTable.

Lemma example_table_prefix_code :
  prefix_code [(Some "c", ["0"]); (Some "a", ["1"; "0"]); (Some "b", ["1"; "1"])]%char.
Proof.
  split.
  - intros k c [H | [H | [H | []]]]; injection H as <- <-; discriminate.
  - intros k c [H | [H | [H | []]]]; injection H as <- <-; discriminate.
  - intros k1 c1 k2 c2 H1 H2 [t Ht].
    destruct H1 as [H1 | [H1 | [H1 | []]]]; injection H1 as <- <-;
      destruct H2 as [H2 | [H2 | [H2 | []]]]; injection H2 as <- <-;
      simpl in Ht; try discriminate; split; reflexivity.
Qed.

Lemma codec_round_trip_witness :
  exists encoded_symbols,
    fst (encode ascii_dec ["b"; "a"; "c"; "c"]%char
           {| root := None;
              code_table := [(Some "c", ["0"]); (Some "a", ["1"; "0"]);
                             (Some "b", ["1"; "1"])]%char |})
    = Ok encoded_symbols
    /\ decode (length ["b"; "a"; "c"; "c"]%char) encoded_symbols
         [(Some "c", ["0"]); (Some "a", ["1"; "0"]); (Some "b", ["1"; "1"])]%char
       = Some (Ok ["b"; "a"; "c"; "c"]%char).
Proof.
  apply (@codec_round_trip ascii ascii_dec
           [(Some "c", ["0"]); (Some "a", ["1"; "0"]); (Some "b", ["1"; "1"])]%char
           ["b"; "a"; "c"; "c"]%char None).
  - exact example_table_prefix_code.
  - intros s [<- | [<- | [<- | [<- | []]]]]; simpl; auto.
Defined.

Lemma decode_returns_preimage_witness :
  fst (encode ascii_dec ["a"; "c"]%char
         {| root := None;
            code_table := [(Some "c", ["0"]); (Some "a", ["1"; "0"]);
                           (Some "b", ["1"; "1"])]%char |})
  = Ok ["1"; "0"; "0"]%char.
Proof.
  apply (@decode_returns_preimage ascii ascii_dec
           [(Some "c", ["0"]); (Some "a", ["1"; "0"]); (Some "b", ["1"; "1"])]%char
           ["1"; "0"; "0"]%char ["a"; "c"]%char None).
  - repeat constructor; simpl; intuition discriminate.
  - exists 2. reflexivity.
Defined.

Lemma decode_raises_only_on_none_key_witness :
  TypeError = TypeError
  /\ exists c, In (@None ascii, c) [(None, ["0"%char])].
Proof.
  apply (@decode_raises_only_on_none_key ascii [(None, ["0"%char])] ["0"%char]).
  exists 1. reflexivity.
Defined.

(** ** The text and video containers *)

Lemma bits_of_bit_string (s : str) :
  Forall is_bit s ->
  exists bits, sequence (map int_and_1 s) = Ok bits /\ to01 bits = s.
Proof.
  induction 1 as [|c s Hc _ [bits [Hseq Hto]]].
  - exists []. split; reflexivity.
  - destruct Hc as [-> | ->].
    + exists (false :: bits). cbn [map sequence]. rewrite Hseq.
      split; [reflexivity | simpl; now rewrite Hto].
    + exists (true :: bits). cbn [map sequence]. rewrite Hseq.
      split; [reflexivity | simpl; now rewrite Hto].
Qed.

Section ContainerFacts.
Context {A : Type} (A_eq_dec : forall x y : A, {x = y} + {x <> y}).

Lemma compress_text_payload (text : list A) :
  text <> [] ->
  exists encoded_text table bits,
    adaptive_huffman_encoding A_eq_dec text = Ok (encoded_text, table)
    /\ compress_text A_eq_dec text = Ok (table, bits)
    /\ to01 bits = encoded_text.
Proof.
  intros Hne.
  destruct (@adaptive_huffman_encoding_built _ A_eq_dec text Hne)
    as [n [_ Henc]].
  destruct (bits_of_bit_string (encoded_bits A_eq_dec n text)) as [bits [Hseq Hto]].
  eexists _, _, bits. split; [exact Henc|]. split; [|exact Hto].
  unfold compress_text. rewrite Henc. cbn [bind]. now rewrite Hseq.
Qed.

(** X10: on a text that is not empty [compress_text] raises nothing, and
    the bits that it stores beside the table are the encoded text:
    [to01] gives it back, digit for digit. *)
Theorem compress_text_stores_encoded_text (text : list A) :
  text <> [] ->
  exists encoded_text table bits,
    adaptive_huffman_encoding A_eq_dec text = Ok (encoded_text, table)
    /\ compress_text A_eq_dec text = Ok (table, bits)
    /\ to01 bits = encoded_text
    /\ length bits = length encoded_text.
Proof.
  intros Hne.
  destruct (compress_text_payload Hne) as [enc [table [bits [Henc [Hcomp Hto]]]]].
  exists enc, table, bits. repeat split; try assumption.
  rewrite <- Hto. unfold to01. now rewrite length_map.
Qed.

(** X11: what [decompress_text] reads from the tuple that [compress_text]
    made of a text is that text, exactly when the text has two distinct
    symbols or more: the empty text is not compressed, and a text made of
    one symbol is read back as the empty text. *)
Theorem text_container_round_trip (text : list A) :
  (exists payload,
      compress_text A_eq_dec text = Ok payload
      /\ exists fuel, decompress_text fuel payload = Some (Ok text))
  <-> (exists x y, In x text /\ In y text /\ x <> y).
Proof.
  split.
  - intros [payload [Hcomp [fuel Hdec]]].
    destruct text as [|a text].
    { unfold compress_text, adaptive_huffman_encoding, and_then in Hcomp.
      rewrite build_tree_nil in Hcomp. discriminate. }
    destruct (@repeat_or_two_distinct _ A_eq_dec (a :: text))
      as [[x [n Hrep]] | Htwo]; [discriminate | | assumption].
    rewrite Hrep in Hcomp, Hdec. unfold compress_text in Hcomp.
    rewrite adaptive_huffman_encoding_repeat in Hcomp.
    simpl in Hcomp. injection Hcomp as <-.
    unfold decompress_text, decode in Hdec. simpl to01 in Hdec.
    rewrite decode_while_nil in Hdec. discriminate.
  - intros [x [y [Hx [Hy Hxy]]]].
    assert (Hne : text <> []) by (intros ->; contradiction).
    destruct (compress_text_payload Hne) as [enc [table [bits [Henc [Hcomp Hto]]]]].
    destruct (@round_trip_two_symbols _ A_eq_dec text x y Hx Hy Hxy)
      as [enc' [table' [Henc' [Hdec _]]]].
    rewrite Henc in Henc'. injection Henc' as <- <-.
    exists (table, bits). split; [assumption|].
    exists (length text). unfold decompress_text. now rewrite Hto.
Qed.

Section VideoFacts.
Context {V : Type} (binary_to_text : V -> list A) (text_to_binary : list A -> V).

(** X12: when [text_to_binary] undoes [binary_to_text] on a video whose
    text has two distinct symbols or more, [decompress_video] gives that
    video back from the tuple that [compress_video] made of it. *)
Theorem video_container_round_trip (video : V) (x y : A) :
  text_to_binary (binary_to_text video) = video ->
  In x (binary_to_text video) -> In y (binary_to_text video) -> x <> y ->
  exists payload,
    compress_video A_eq_dec binary_to_text video = Ok payload
    /\ decompress_video text_to_binary
         (length (binary_to_text video)) payload
       = Some (Ok video).
Proof.
  intros Hadapter Hx Hy Hxy.
  assert (Hne : binary_to_text video <> [])
    by (intros Hnil; rewrite Hnil in Hx; contradiction).
  destruct (compress_text_payload Hne) as [enc [table [bits [Henc [Hcomp Hto]]]]].
  destruct (@round_trip_two_symbols _ A_eq_dec (binary_to_text video) x y Hx Hy Hxy)
    as [enc' [table' [Henc' [Hdec _]]]].
  rewrite Henc in Henc'. injection Henc' as <- <-.
  exists (table, bits). split; [exact Hcomp|].
  unfold decompress_video. now rewrite Hto, Hdec, Hadapter.
Qed.

End VideoFacts.
End ContainerFacts.

Lemma compress_text_stores_encoded_text_witness :
  exists encoded_text table bits,
    adaptive_huffman_encoding ascii_dec ["a"; "a"; "b"; "b"; "b"; "c"; "c"]%char
    = Ok (encoded_text, table)
    /\ compress_text ascii_dec ["a"; "a"; "b"; "b"; "b"; "c"; "c"]%char
       = Ok (table, bits)
    /\ to01 bits = encoded_text
    /\ length bits = length encoded_text.
Proof.
  apply (@compress_text_stores_encoded_text ascii ascii_dec
           ["a"; "a"; "b"; "b"; "b"; "c"; "c"]%char).
  discriminate.
Defined.

Lemma video_container_round_trip_witness :
  exists payload,
    compress_video ascii_dec (fun video : list ascii => video)
      ["f"; "r"; "a"; "m"; "e"]%char
    = Ok payload
    /\ decompress_video (fun text : list ascii => text)
         (length ["f"; "r"; "a"; "m"; "e"]%char) payload
       = Some (Ok ["f"; "r"; "a"; "m"; "e"]%char).
Proof.
  apply (@video_container_round_trip ascii ascii_dec (list ascii)
           (fun video => video) (fun text => text)
           ["f"; "r"; "a"; "m"; "e"]%char "f"%char "r"%char).
  - reflexivity.
  - simpl. left. reflexivity.
  - simpl. right. left. reflexivity.
  - discriminate.
Defined.

(** ** The image container, on any image *)

Lemma sequence_map_Forall {X Y : Type} (P : Y -> Prop) (f : X -> result Y)
    (l : list X) :
  (forall x, In x l -> exists y, f x = Ok y /\ P y) ->
  exists ys, sequence (map f l) = Ok ys /\ length ys = length l /\ Forall P ys.
Proof.
  induction l as [|x l IH]; intros H.
  - exists []. repeat split. constructor.
  - destruct (H x (or_introl eq_refl)) as [y [Hy HP]].
    destruct IH as [ys [Hys [Hlen Hall]]]; [intros x' Hx'; apply H; now right|].
    exists (y :: ys). simpl. rewrite Hy, Hys. simpl.
    repeat split; [now rewrite Hlen | now constructor].
Qed.

Lemma image_symbols_seven_bits (binarios : list N) :
  exists symbols,
    image_symbols binarios = Ok symbols
    /\ length symbols = (length binarios + 6) / 7
    /\ Forall (fun c => (c < 128)%N) symbols.
Proof.
  unfold image_symbols.
  destruct (@sequence_map_Forall nat N (fun c => (c < 128)%N)
              (fun i => n <- int2 (slice (cadena_bits_of binarios) i (i + 7)) ;; chr n)
              (range 0 (length binarios) 7)) as [symbols [Hseq [Hlen Hall]]].
  - intros i Hi. apply range_from_lt in Hi.
    pose proof (cadena_bits_of_length_ge binarios) as Hge.
    pose proof (slice_length (cadena_bits_of binarios) i) as Hslice.
    apply group_symbol.
    + apply Forall_slice, cadena_bits_of_bits.
    + intros Hnil. rewrite Hnil in Hslice. cbn [length] in Hslice. lia.
    + lia.
  - exists symbols. repeat split; [assumption | | assumption].
    rewrite Hlen. unfold range. rewrite range_from_length by lia.
    now rewrite Nat.sub_0_r.
Qed.

(** X13: on an image that has bytes, whatever integers they are,
    [compress_image] raises nothing.  The characters that it encodes are
    7-bit characters, the container holds their table and their encoded
    text as bits, the dimensions as they were given, and the padding
    computed from the bit string of the bytes. *)
Theorem compress_image_succeeds (width height channels : nat)
    (binarios : list N) :
  binarios <> [] ->
  exists symbols encoded_text table bits,
    image_symbols binarios = Ok symbols
    /\ Forall (fun c => (c < 128)%N) symbols
    /\ adaptive_huffman_encoding N.eq_dec symbols = Ok (encoded_text, table)
    /\ to01 bits = encoded_text
    /\ compress_image width height channels binarios
       = Ok {| tree_code_table := table; bits := bits;
               width := width; height := height; channels := channels;
               padding := paddinf_of (length (concat (map format_08b binarios))) |}.
Proof.
  intros Hne.
  destruct (image_symbols_seven_bits binarios) as [symbols [Hsym [Hlen Hall]]].
  assert (Hsymbols : symbols <> []).
  { intros ->. destruct binarios; [congruence|]. simpl length in Hlen. lia. }
  destruct (compress_text_payload N.eq_dec Hsymbols)
    as [enc [table [bits [Henc [Hcomp Hto]]]]].
  exists symbols, enc, table, bits. repeat split; try assumption.
  unfold compress_image. rewrite Hsym. cbn [bind]. rewrite Henc. cbn [bind].
  unfold compress_text in Hcomp. rewrite Henc in Hcomp. cbn [bind] in Hcomp.
  destruct (sequence (map int_and_1 enc)) as [bits'|e]; [|discriminate].
  cbn [bind] in Hcomp |- *. now injection Hcomp as ->.
Qed.

Lemma compress_image_succeeds_witness :
  exists symbols encoded_text table bits,
    image_symbols [255; 0; 255]%N = Ok symbols
    /\ Forall (fun c => (c < 128)%N) symbols
    /\ adaptive_huffman_encoding N.eq_dec symbols = Ok (encoded_text, table)
    /\ to01 bits = encoded_text
    /\ compress_image 1 1 3 [255; 0; 255]%N
       = Ok {| tree_code_table := table; bits := bits;
               width := 1; height := 1; channels := 3;
               padding := paddinf_of
                            (length (concat (map format_08b [255; 0; 255]%N))) |}.
Proof.
  apply (compress_image_succeeds 1 1 3 (binarios := [255; 0; 255]%N)).
  discriminate.
Defined.

(** X14: for an image of bytes (integers below 256), the padding that
    [compress_image] records is the number between 0 and 6 that, added to
    the eight bits per byte, gives a multiple of seven. *)
Theorem image_padding_least (width height channels : nat)
    (binarios : list N) (container : image_container) :
  Forall (fun byte => (byte < 256)%N) binarios ->
  compress_image width height channels binarios = Ok container ->
  padding container < 7
  /\ (8 * length binarios + padding container) mod 7 = 0.
Proof.
  intros Hbytes Hcomp.
  rewrite (compress_image_padding _ _ _ Hbytes Hcomp).
  destruct (paddinf_of_spec (8 * length binarios)) as [_ [_ [Hlt Hmod]]].
  now split.
Qed.

Lemma image_padding_least_witness :
  padding {| tree_code_table := [(Some 127%N, [])]; bits := [];
             width := 1; height := 1; channels := 3; padding := 4 |} < 7
  /\ (8 * length [255; 0; 255]%N
      + padding {| tree_code_table := [(Some 127%N, [])]; bits := [];
                   width := 1; height := 1; channels := 3; padding := 4 |})
     mod 7 = 0.
Proof.
  apply (@image_padding_least 1 1 3 [255; 0; 255]%N).
  - repeat constructor.
  - reflexivity.
Defined.

Lemma encode_utf8_seven_bits (text : list N) :
  Forall (fun c => (c < 128)%N) text -> encode_utf8 text = Ok text.
Proof.
  unfold encode_utf8.
  assert (Hseq : Forall (fun c => (c < 128)%N) text ->
            sequence (map utf8_char text) = Ok (map (fun c => [c]) text)).
  { induction 1 as [|c text Hc _ IH]; [reflexivity|].
    cbn [map sequence]. unfold utf8_char at 1.
    apply N.ltb_lt in Hc. rewrite Hc. cbn [bind]. now rewrite IH. }
  intros Hall. rewrite (Hseq Hall). cbn [bind]. f_equal.
  clear. induction text as [|c text IH]; [reflexivity|].
  simpl. now rewrite IH.
Qed.

(** X15: when no padding was needed, [decompress_image] reads back from
    the container of [compress_image], as bytes, the characters that
    [compress_image] encoded, provided that two of them at least are
    distinct. *)
Theorem image_characters_read_back (width height channels : nat)
    (binarios : list N) (container : image_container)
    (symbols : list N) (x y : N) :
  compress_image width height channels binarios = Ok container ->
  padding container = 0 ->
  image_symbols binarios = Ok symbols ->
  In x symbols -> In y symbols -> x <> y ->
  decompress_image (length symbols) container = Some (Ok symbols).
Proof.
  intros Hcomp Hpad Hsym Hx Hy Hxy.
  destruct (image_symbols_seven_bits binarios) as [symbols' [Hsym' [_ Hall]]].
  rewrite Hsym in Hsym'. injection Hsym' as <-.
  assert (Hne : symbols <> []) by (intros ->; contradiction).
  destruct (compress_text_payload N.eq_dec Hne)
    as [enc [table [bits [Henc [Htext Hto]]]]].
  destruct (@round_trip_two_symbols _ N.eq_dec symbols x y Hx Hy Hxy)
    as [enc' [table' [Henc' [Hdec _]]]].
  rewrite Henc in Henc'. injection Henc' as <- <-.
  unfold compress_image in Hcomp. rewrite Hsym in Hcomp. cbn [bind] in Hcomp.
  rewrite Henc in Hcomp. cbn [bind] in Hcomp.
  unfold compress_text in Htext. rewrite Henc in Htext. cbn [bind] in Htext.
  destruct (sequence (map int_and_1 enc)) as [bits'|e]; [|discriminate].
  cbn [bind] in Hcomp, Htext. injection Htext as ->. injection Hcomp as <-.
  unfold decompress_image. simpl in Hpad |- *. rewrite Hpad. simpl.
  rewrite Hto, Hdec. now rewrite encode_utf8_seven_bits.
Qed.

Lemma image_characters_read_back_witness :
  decompress_image (length [0; 1]%N)
    {| tree_code_table := [(Some 0%N, ["0"%char]); (Some 1%N, ["1"%char])];
       bits := [false; true];
       width := 7; height := 2; channels := 1; padding := 0 |}
  = Some (Ok [0; 1]%N).
Proof.
  apply (@image_characters_read_back 7 2 1
           [0; 4; 0; 0; 0; 0; 0; 0; 0; 0; 0; 0; 0; 0]%N _ [0; 1]%N 0%N 1%N).
  - reflexivity.
  - reflexivity.
  - reflexivity.
  - simpl. left. reflexivity.
  - simpl. right. left. reflexivity.
  - discriminate.
Defined.

(** ** Size of the encoded text *)

Section EncodedLength.
Context {A : Type} (A_eq_dec : forall x y : A, {x = y} + {x <> y}).



End EncodedLength.

